(** * enumerate-igp-tunnels: adjacency derivation and WireGuard port allocation

    A shallow embedding of [scripts/enumerate-igp-tunnels.py].  The script
    reads the previously generated [global-config/igp-tunnels.yml] (or a
    default template), rebuilds the table of IGP neighbours of every router
    from the inventory, extends the table of WireGuard ports by one port per
    pair of routers, and writes the document back.

    Python dictionaries are finite maps ([gmap]), Python sets are finite sets
    ([gset]), Python integers are [Z].  The dictionary [dn42routers] is
    iterated in insertion order, so it is a list of (key, value) pairs; a
    dictionary has no two equal keys, which theorems that need it state as
    [NoDup].  The body of [main] mutates the dictionary [data] and the local
    [seen_shortnames] and may raise: it is written in a state-and-exception
    monad over that memory, so that the memory at the point of a [raise] is
    observable. *)

From Stdlib Require Import Ascii.
From stdpp Require Import gmap strings list fin_maps.

Local Open Scope Z_scope.

(** ** Data *)

(** The value of one entry of [dn42routers]: [serverdata['shortname']] and
    [serverdata.get('igp_upstreams', [])]. *)
Record serverdata := Serverdata {
  shortname : string;
  igp_upstreams : list string;
}.

#[global] Instance serverdata_eq_dec : EqDecision serverdata.
Proof. solve_decision. Defined.

(** What [main] reads from [hosts.yml].  [yaml_load] and [get_hosts] come
    from the module [_common]; their results are the input here:
    [dn42routers = get_hosts(hosts)] and
    [meshrouters = hosts['meshrouters']['hosts']]. *)
Record inventory := Inventory {
  dn42routers : list (string * serverdata);
  meshrouters : list string;
}.

(** The document stored in [OUTFILE]. *)
Record settings := Settings {
  next_port : Z;
  igp_neighbours : gmap string (gset string);
  igp_wg_ports : gmap string Z;
}.

Definition START_PORT : Z := 55000.

(** The file [OUTFILE] either does not exist ([None]) or holds a document. *)
Definition _read_previous_settings (outfile : option settings) : settings :=
  match outfile with
  | Some data => data
  | None => {| next_port := START_PORT; igp_neighbours := ∅; igp_wg_ports := ∅ |}
  end.

(** ** Memory, exceptions and the monad of [main] *)

Record mem := Mem {
  data : settings;
  seen_shortnames : gmap string string;
}.

Inductive exception :=
  | DuplicateShortname (shortname first server : string)
      (* ValueError(f"Duplicate shortname {shortname}: ...") *)
  | MustDefineUpstreamsOrMesh (server : string)
      (* ValueError(f"{server} must either define igp_upstreams or be part
         of meshrouters group (and not both)") *)
  | KeyError (key : string).
      (* set.remove of an absent element *)

Inductive outcome (A : Type) :=
  | Returned (a : A)
  | Raised (e : exception).
Arguments Returned {A} a.
Arguments Raised {A} e.

Definition M (A : Type) : Type := mem → outcome A * mem.

#[global] Instance M_ret : MRet M := λ A a m, (Returned a, m).
#[global] Instance M_bind : MBind M := λ A B f c m,
  match c m with
  | (Returned a, m') => f a m'
  | (Raised e, m') => (Raised e, m')
  end.

Definition raise {A} (e : exception) : M A := λ m, (Raised e, m).
Definition gets {A} (f : mem → A) : M A := λ m, (Returned (f m), m).
Definition modify (f : mem → mem) : M unit := λ m, (Returned tt, f m).

Fixpoint for_each {A} (l : list A) (body : A → M unit) : M unit :=
  match l with
  | [] => mret tt
  | x :: l' => body x ;; for_each l' body
  end.

(** Updates of the three entries of [data]. *)
Definition on_neighbours
    (f : gmap string (gset string) → gmap string (gset string)) (m : mem) : mem :=
  {| data := {| next_port := next_port (data m);
                igp_neighbours := f (igp_neighbours (data m));
                igp_wg_ports := igp_wg_ports (data m) |};
     seen_shortnames := seen_shortnames m |}.

Definition on_ports (f : gmap string Z → gmap string Z) (m : mem) : mem :=
  {| data := {| next_port := next_port (data m);
                igp_neighbours := igp_neighbours (data m);
                igp_wg_ports := f (igp_wg_ports (data m)) |};
     seen_shortnames := seen_shortnames m |}.

Definition on_next_port (f : Z → Z) (m : mem) : mem :=
  {| data := {| next_port := f (next_port (data m));
                igp_neighbours := igp_neighbours (data m);
                igp_wg_ports := igp_wg_ports (data m) |};
     seen_shortnames := seen_shortnames m |}.

Definition on_seen (f : gmap string string → gmap string string) (m : mem) : mem :=
  {| data := data m; seen_shortnames := f (seen_shortnames m) |}.

(** [d.setdefault(k, set())] on a dictionary of sets. *)
Definition setdefault (k : string) (d : gmap string (gset string)) :
    gmap string (gset string) :=
  match d !! k with
  | Some _ => d
  | None => <[k := ∅]> d
  end.

(** The set stored under [k], as a reader sees it. *)
Definition neighbours_of (d : gmap string (gset string)) (k : string) : gset string :=
  default ∅ (d !! k).

(** [s.remove(x)] on the set stored under [k]: a [KeyError] when [x] is
    not a member. *)
Definition remove (k x : string) : M unit :=
  d ← gets (λ m, igp_neighbours (data m));
  if bool_decide (x ∈ neighbours_of d k)
  then modify (on_neighbours (alter (λ s, s ∖ {[x]}) k))
  else raise (KeyError x).

(** ** Populating the neighbours (the first loop of [main]) *)

(** [data['igp_neighbours'].setdefault(neighbour, set()).add(server)]. *)
Definition add_neighbour (neighbour server : string) : M unit :=
  modify (on_neighbours (setdefault neighbour)) ;;
  modify (on_neighbours (alter (λ s, s ∪ {[server]}) neighbour)).

(** One iteration of [for server, serverdata in dn42routers.items()].
    [neighbours] is the set object stored under [server], which the
    [setdefault] of the first line guarantees to exist: updating
    [neighbours] in place is [alter] at [server]. *)
Definition visit (meshrouters : list string)
    (server : string) (sd : serverdata) : M unit :=
  modify (on_neighbours (setdefault server)) ;;
  seen ← gets seen_shortnames;
  match seen !! shortname sd with
  | Some first => raise (DuplicateShortname (shortname sd) first server)
  | None =>
    modify (on_seen <[shortname sd := server]>) ;;
    (if bool_decide (server ∈ meshrouters)
     then modify (on_neighbours (alter (λ s, s ∪ list_to_set meshrouters) server)) ;;
          remove server server
     else mret tt) ;;
    let upstreams : gset string := list_to_set (igp_upstreams sd) in
    if negb (xorb (bool_decide (server ∈ meshrouters)) (bool_decide (upstreams ≠ ∅)))
    then raise (MustDefineUpstreamsOrMesh server)
    else
      modify (on_neighbours (alter (λ s, s ∪ upstreams) server)) ;;
      for_each (elements upstreams) (λ neighbour, add_neighbour neighbour server)
  end.

Definition populate_neighbours (hosts : inventory) : M unit :=
  for_each (dn42routers hosts) (λ '(server, sd), visit (meshrouters hosts) server sd).

(** ** Populating the ports (the second loop of [main]) *)

(** [sep.join(l)]. *)
Fixpoint join (sep : string) (l : list string) : string :=
  match l with
  | [] => ""
  | [x] => x
  | x :: l' => x +:+ sep +:+ join sep l'
  end.

(** [itertools.combinations(l, 2)]. *)
Fixpoint combinations2 {A} (l : list A) : list (A * A) :=
  match l with
  | [] => []
  | x :: l' => ((λ y, (x, y)) <$> l') ++ combinations2 l'
  end.

(** One iteration of [for cmb in itertools.combinations(dn42routers, 2)].
    The [print] calls are left out. *)
Definition allocate (cmb0 : string * string) : M unit :=
  let cmb_reverse := join "," [cmb0.2; cmb0.1] in
  let cmb := join "," [cmb0.1; cmb0.2] in
  ports ← gets (λ m, igp_wg_ports (data m));
  if bool_decide (ports !! cmb = None) || bool_decide (ports !! cmb_reverse = None)
  then
    port ← gets (λ m, next_port (data m));
    modify (on_ports <[cmb := port]>) ;;
    modify (on_ports <[cmb_reverse := port]>) ;;
    modify (on_next_port (λ n, n + 1))
  else mret tt.

Definition populate_ports (hosts : inventory) : M unit :=
  for_each (combinations2 (dn42routers hosts).*1) allocate.

(** ** [main] *)

(** Everything [main] does between reading and writing the file. *)
Definition main_body (hosts : inventory) : M unit :=
  modify (on_neighbours (λ _, ∅)) ;;
  populate_neighbours hosts ;;
  populate_ports hosts.

(** The memory [main] starts from. *)
Definition initial (outfile : option settings) : mem :=
  {| data := _read_previous_settings outfile; seen_shortnames := ∅ |}.

(** A run of the script against the content of [OUTFILE]: how the run ends,
    and what the file holds afterwards.  The file is written only when the
    end of [main] is reached; an exception leaves it as it was.  Dumping
    [data] to YAML and loading it again is taken to give [data] back. *)
Definition main (hosts : inventory) (outfile : option settings) :
    outcome unit * option settings :=
  match main_body hosts (initial outfile) with
  | (Returned _, m) => (Returned tt, Some (data m))
  | (Raised e, _) => (Raised e, outfile)
  end.

(** * Vocabulary of the statements *)

(** ** Parts of a run *)

(** The identifiers of the routers, in the order of the dictionary. *)
Definition routers (hosts : inventory) : list string := (dn42routers hosts).*1.

(** The memory in which the first loop starts. *)
Definition cleared (outfile : option settings) : mem :=
  on_neighbours (λ _, ∅) (initial outfile).

(** Adjacency derivation: [main] up to the end of the first loop. *)
Definition derive (hosts : inventory) (outfile : option settings) :
    outcome unit * mem :=
  populate_neighbours hosts (cleared outfile).

(** The two entries of [data] the first loop does not touch. *)
Definition same_ports (m m' : mem) : Prop :=
  next_port (data m') = next_port (data m) ∧
  igp_wg_ports (data m') = igp_wg_ports (data m).

(** The memory [m] with the counter and the port table of [d]. *)
Definition with_ports (d : settings) (m : mem) : mem :=
  {| data := {| next_port := next_port d;
                igp_neighbours := igp_neighbours (data m);
                igp_wg_ports := igp_wg_ports d |};
     seen_shortnames := seen_shortnames m |}.

(** ** Keys of the port table *)

(** The key under which [allocate] stores the pair [(a, b)]. *)
Definition key (a b : string) : string := a +:+ "," +:+ b.

(** A router identifier without a comma. *)
Fixpoint has_comma (s : string) : bool :=
  match s with
  | EmptyString => false
  | String c s' => bool_decide (c = ","%char) || has_comma s'
  end.

Definition comma_free (s : string) : Prop := has_comma s = false.

#[global] Instance comma_free_dec s : Decision (comma_free s).
Proof. unfold comma_free. apply _. Defined.

(** The keys the second loop may write, in the order of the pairs. *)
Definition pair_keys (ps : list (string * string)) : list string :=
  ps ≫= λ p, [key p.1 p.2; key p.2 p.1].

(** Both orderings of the pair are in the table. *)
Definition both_present (ports : gmap string Z) (p : string * string) : Prop :=
  is_Some (ports !! key p.1 p.2) ∧ is_Some (ports !! key p.2 p.1).

#[global] Instance both_present_dec ports p : Decision (both_present ports p).
Proof. unfold both_present. apply _. Defined.

(** What the first branch of [allocate] leaves in memory. *)
Definition fresh_pair (a b : string) (m : mem) : mem :=
  on_next_port (λ n, n + 1)
    (on_ports <[key b a := next_port (data m)]>
       (on_ports <[key a b := next_port (data m)]> m)).

(** The pairs of the loop that lack a key in the table. *)
Definition missing_pairs (ports : gmap string Z) (ps : list (string * string)) :
    list (string * string) :=
  filter (λ p, ¬ both_present ports p) ps.

(** The counter stays above every port of the table. *)
Definition counter_above_ports (d : settings) : Prop :=
  ∀ k v, igp_wg_ports d !! k = Some v → v < next_port d.

(** A table that stores every pair under both orderings with one value. *)
Definition symmetric (ports : gmap string Z) : Prop :=
  ∀ a b, ports !! key a b = ports !! key b a.

(** A table whose two orderings differ only for pairs of [ps] that lack a
    key. *)
Definition symmetric_outside (ports : gmap string Z) (ps : list (string * string)) :
    Prop :=
  ∀ a b, ports !! key a b ≠ ports !! key b a →
    ((a, b) ∈ ps ∨ (b, a) ∈ ps) ∧ ¬ both_present ports (a, b).

(** A table in which two keys with one port are one key or the two
    orderings of one pair. *)
Definition collision_free (ports : gmap string Z) : Prop :=
  ∀ k1 k2 v, ports !! k1 = Some v → ports !! k2 = Some v →
    k1 = k2 ∨ ∃ a b, k1 = key a b ∧ k2 = key b a.

(** The script run once per inventory of [runs], each run reading the file
    the one before left. *)
Definition rerun (runs : list inventory) (outfile : option settings) :
    option settings :=
  foldl (λ file hosts, (main hosts file).2) outfile runs.

(** ** Routers and their constraint *)

(** The constraint on one router: a member of the mesh without upstreams,
    or a router outside the mesh with upstreams. *)
Definition well_placed (mesh : list string) (s : string) (sd : serverdata) : Prop :=
  (s ∈ mesh ∧ igp_upstreams sd = []) ∨ ((s ∉ mesh) ∧ igp_upstreams sd ≠ []).

#[global] Instance well_placed_dec mesh s sd : Decision (well_placed mesh s sd).
Proof. unfold well_placed. apply _. Defined.

(** A router that breaks the constraint: in the mesh and with upstreams, or
    outside the mesh and without upstreams. *)
Definition misplaced (mesh : list string) (s : string) (sd : serverdata) : Prop :=
  (s ∈ mesh ∧ igp_upstreams sd ≠ []) ∨ ((s ∉ mesh) ∧ igp_upstreams sd = []).

#[global] Instance misplaced_dec mesh s sd : Decision (misplaced mesh s sd).
Proof. unfold misplaced. apply _. Defined.

(** The shortnames of a list of routers, in order. *)
Definition shortnames (l : list (string * serverdata)) : list string :=
  (λ p, shortname p.2) <$> l.

(** No shortname twice, and none already [taken]. *)
Definition unique_names (taken : gset string) (l : list (string * serverdata)) :
    Prop :=
  NoDup (shortnames l) ∧ ∀ n, n ∈ shortnames l → n ∉ taken.

(** Every identifier named as an upstream by a router of [l]. *)
Definition upstreams_of (l : list (string * serverdata)) : gset string :=
  ⋃ ((λ p, list_to_set (igp_upstreams p.2)) <$> l).

(** [dn42routers[a].get('igp_upstreams', [])], and nothing for an identifier
    that is not a key of [dn42routers]. *)
Definition upstreams (hosts : inventory) (a : string) : list string :=
  match (list_to_map (dn42routers hosts) : gmap string serverdata) !! a with
  | Some sd => igp_upstreams sd
  | None => []
  end.

(** ** Concrete inventories and documents *)

(** Two mesh routers. *)
Definition two_mesh : inventory :=
  {| dn42routers := [("A", Serverdata "a" []); ("B", Serverdata "b" [])];
     meshrouters := ["A"; "B"] |}.

(** A document that stores the pair of [two_mesh] under one ordering only. *)
Definition one_sided : settings :=
  {| next_port := 55001; igp_neighbours := ∅;
     igp_wg_ports := {[ "A,B" := 55000 ]} |}.

(** A document with a lone key of two routers that are not in [two_mesh]. *)
Definition stale_key : settings :=
  {| next_port := 55001; igp_neighbours := ∅;
     igp_wg_ports := {[ "X,Y" := 55000 ]} |}.

(** What [main two_mesh] writes when there is no file. *)
Definition two_mesh_out : settings :=
  {| next_port := 55001;
     igp_neighbours := {[ "A" := {[ "B" ]}; "B" := {[ "A" ]} ]};
     igp_wg_ports := {[ "A,B" := 55000; "B,A" := 55000 ]} |}.

(** The router whose identifier is "B" is outside the mesh and has no
    upstream, and shares its shortname with "A". *)
Definition misplaced_duplicate : inventory :=
  {| dn42routers := [("A", Serverdata "a" []); ("B", Serverdata "a" [])];
     meshrouters := ["A"] |}.

(** A router that is in the mesh and declares an upstream. *)
Definition mesh_with_upstream : inventory :=
  {| dn42routers := [("A", Serverdata "a" []); ("B", Serverdata "b" ["A"])];
     meshrouters := ["A"; "B"] |}.

(** Two routers outside the mesh, without upstreams, with one shortname. *)
Definition duplicate_after_misplaced : inventory :=
  {| dn42routers := [("A", Serverdata "a" []); ("B", Serverdata "a" [])];
     meshrouters := [] |}.

(** Two mesh routers with one shortname. *)
Definition duplicate_in_mesh : inventory :=
  {| dn42routers := [("A", Serverdata "a" []); ("B", Serverdata "a" [])];
     meshrouters := ["A"; "B"] |}.

(** A mesh of two and a leaf with two upstreams, one of them unknown. *)
Definition mesh_and_leaf : inventory :=
  {| dn42routers := [("A", Serverdata "a" []); ("B", Serverdata "b" []);
                     ("L", Serverdata "l" ["A"; "U"])];
     meshrouters := ["A"; "B"] |}.

(** What [main mesh_and_leaf] writes when there is no file. *)
Definition mesh_and_leaf_out : settings :=
  {| next_port := 55003;
     igp_neighbours := {[ "A" := {[ "B"; "L" ]}; "B" := {[ "A" ]};
                          "L" := {[ "A"; "U" ]}; "U" := {[ "L" ]} ]};
     igp_wg_ports := {[ "A,B" := 55000; "B,A" := 55000; "A,L" := 55001;
                        "L,A" := 55001; "B,L" := 55002; "L,B" := 55002 ]} |}.

(** One mesh router, and a member of the mesh group that is not a router. *)
Definition mesh_with_guest : inventory :=
  {| dn42routers := [("A", Serverdata "a" [])]; meshrouters := ["A"; "G"] |}.

(** The inventory of three mesh routers [X], [Y], [Z], with shortnames
    [nx], [ny], [nz]; [mesh] lists the mesh group. *)
Definition three_mesh (X Y Z nx ny nz : string) (mesh : list string) : inventory :=
  {| dn42routers := [(X, Serverdata nx []); (Y, Serverdata ny []);
                     (Z, Serverdata nz [])];
     meshrouters := mesh |}.

(** Closed decidable side conditions, by evaluation. *)
Ltac by_evaluation := apply (bool_decide_unpack _); vm_compute; exact I.

(** * Verification *)

(** ** Running the monad *)

Section running.
Context {A : Type}.
Implicit Types (body : A → M unit) (l : list A) (m : mem).

Lemma for_each_cons body x l m :
  for_each (x :: l) body m =
    match body x m with
    | (Returned _, m') => for_each l body m'
    | (Raised e, m') => (Raised e, m')
    end.
Proof. reflexivity. Qed.

Lemma for_each_returned body x l m m' :
  body x m = (Returned tt, m') →
  for_each (x :: l) body m = for_each l body m'.
Proof. intros Hx. by rewrite for_each_cons, Hx. Qed.

Lemma for_each_raised body x l m m' e :
  body x m = (Raised e, m') →
  for_each (x :: l) body m = (Raised e, m').
Proof. intros Hx. by rewrite for_each_cons, Hx. Qed.

(** A loop whose body keeps an invariant and never raises. *)
Lemma for_each_invariant (I : mem → Prop) body l :
  (∀ x m, x ∈ l → I m → ∃ m', body x m = (Returned tt, m') ∧ I m') →
  ∀ m, I m → ∃ m', for_each l body m = (Returned tt, m') ∧ I m'.
Proof.
  induction l as [|x l IH]; intros Hbody m Hm.
  - by exists m.
  - destruct (Hbody x m) as (m1 & Hx & Hm1); [left | done |].
    rewrite (for_each_returned _ _ _ _ _ Hx).
    apply IH; [|done]. intros y m2 Hy. apply Hbody. by right.
Qed.
End running.

(** ** Keys of the port table *)

Lemma join_pair a b : join "," [a; b] = key a b.
Proof. reflexivity. Qed.

Lemma has_comma_key a b : has_comma (key a b) = true.
Proof.
  unfold key. induction a as [|c a IH]; simpl; [done|].
  rewrite IH. apply orb_true_r.
Qed.

(** With a comma in an identifier two pairs may share a key. *)
Lemma key_collision : key "a,b,a" "a" = key "a" "b,a,a".
Proof. reflexivity. Qed.

(** A key built from comma-free identifiers splits in one way only. *)
Lemma key_inj a b a' b' :
  comma_free a → comma_free b → key a' b' = key a b → a' = a ∧ b' = b.
Proof.
  unfold comma_free. intros Ha Hb. revert a' Ha.
  induction a as [|c a IH]; intros [|c' a'] Ha Heq; simpl in *.
  - by injection Heq.
  - injection Heq as -> Heq. fold (key a' b') in Heq.
    change ("" +:+ b) with b in Heq.
    pose proof (has_comma_key a' b') as Hc. rewrite Heq in Hc. congruence.
  - injection Heq as <- _. by rewrite bool_decide_eq_true_2 in Ha.
  - injection Heq as -> Heq. apply orb_false_elim in Ha as [_ Ha].
    destruct (IH a' Ha Heq) as [-> ->]. done.
Qed.

Lemma elem_of_pair_keys k ps :
  k ∈ pair_keys ps ↔ ∃ a b, (a, b) ∈ ps ∧ (k = key a b ∨ k = key b a).
Proof.
  unfold pair_keys. rewrite list_elem_of_bind. split.
  - intros ([a b] & Hk & Hp). exists a, b. split; [done|]. simpl in Hk.
    rewrite !elem_of_cons in Hk. destruct Hk as [->|[->|Hk]]; [by left|by right|].
    by apply elem_of_nil in Hk.
  - intros (a & b & Hp & Hk). exists (a, b). split; [|done]. simpl.
    rewrite !elem_of_cons. destruct Hk; [by left | by right; left].
Qed.

(** ** One allocation step *)

Section allocate_step.
Implicit Types (m : mem) (a b k : string).

Lemma both_present_swap (ports : gmap string Z) a b :
  both_present ports (a, b) ↔ both_present ports (b, a).
Proof. unfold both_present. simpl. tauto. Qed.

Lemma allocate_existing a b m :
  both_present (igp_wg_ports (data m)) (a, b) →
  allocate (a, b) m = (Returned tt, m).
Proof.
  intros [[v Hv] [w Hw]]. unfold allocate. simpl in *.
  fold (key a b) (key b a). unfold mbind, M_bind, gets. simpl.
  rewrite Hv, Hw. rewrite !bool_decide_eq_false_2 by done. done.
Qed.

Lemma allocate_missing a b m :
  ¬ both_present (igp_wg_ports (data m)) (a, b) →
  allocate (a, b) m = (Returned tt, fresh_pair a b m).
Proof.
  intros Hmiss. unfold allocate. simpl in *.
  fold (key a b) (key b a). unfold mbind, M_bind, gets. simpl.
  destruct (igp_wg_ports (data m) !! key a b) as [v|] eqn:Hv;
    destruct (igp_wg_ports (data m) !! key b a) as [w|] eqn:Hw;
    try (rewrite ?bool_decide_eq_true_2, ?bool_decide_eq_false_2 by done; done).
  exfalso. apply Hmiss. unfold both_present. simpl. rewrite Hv, Hw. eauto.
Qed.

Lemma allocate_cases a b m :
  (both_present (igp_wg_ports (data m)) (a, b) ∧
     allocate (a, b) m = (Returned tt, m)) ∨
  (¬ both_present (igp_wg_ports (data m)) (a, b) ∧
     allocate (a, b) m = (Returned tt, fresh_pair a b m)).
Proof.
  destruct (decide (both_present (igp_wg_ports (data m)) (a, b)));
    [left | right]; eauto using allocate_existing, allocate_missing.
Qed.

Lemma fresh_pair_lookup a b m k :
  igp_wg_ports (data (fresh_pair a b m)) !! k =
    if decide (k = key a b ∨ k = key b a) then Some (next_port (data m))
    else igp_wg_ports (data m) !! k.
Proof.
  unfold fresh_pair. simpl. case_decide as Hk.
  - destruct (decide (k = key b a)) as [->|Hne].
    + by rewrite lookup_insert_eq.
    + destruct Hk as [->|]; [|done].
      rewrite lookup_insert_ne by done. by rewrite lookup_insert_eq.
  - rewrite !lookup_insert_ne by naive_solver. done.
Qed.
End allocate_step.

(** ** The loop over the pairs *)

Section allocate_loop.
Implicit Types (m : mem) (a b k : string) (ps : list (string * string)).

Local Abbreviation ports m := (igp_wg_ports (data m)).
Local Abbreviation counter m := (next_port (data m)).

(** The loop never raises, and touches neither the neighbours nor
    [seen_shortnames]; the counter never decreases and no key is lost. *)
Lemma allocate_loop_returns ps m :
  ∃ m', for_each ps allocate m = (Returned tt, m') ∧
    igp_neighbours (data m') = igp_neighbours (data m) ∧
    seen_shortnames m' = seen_shortnames m ∧
    counter m ≤ counter m' ∧
    (∀ k, is_Some (ports m !! k) → is_Some (ports m' !! k)).
Proof.
  revert m. induction ps as [|[a b] ps IH]; intros m.
  - exists m. repeat split; [lia | done].
  - destruct (allocate_cases a b m) as [[_ Hstep]|[_ Hstep]];
      rewrite (for_each_returned _ _ _ _ _ Hstep).
    + apply IH.
    + destruct (IH (fresh_pair a b m)) as (m' & Hrun & Hn & Hs & Hc & Hk).
      exists m'. split; [done|]. simpl in Hn, Hs, Hc.
      repeat split; [done | done | lia |].
      intros k Hsome. apply Hk. rewrite fresh_pair_lookup.
      case_decide; [eauto | done].
Qed.

(** A key outside the pairs of the loop is not written. *)
Lemma allocate_loop_frame ps m m' k :
  for_each ps allocate m = (Returned tt, m') →
  k ∉ pair_keys ps →
  ports m' !! k = ports m !! k.
Proof.
  revert m. induction ps as [|[a b] ps IH]; intros m Hrun Hk.
  - by injection Hrun as <-.
  - unfold pair_keys in Hk. rewrite bind_cons in Hk. simpl in Hk.
    rewrite !not_elem_of_cons in Hk. destruct Hk as (Hab & Hba & Hk).
    destruct (allocate_cases a b m) as [[_ Hstep]|[_ Hstep]];
      rewrite (for_each_returned _ _ _ _ _ Hstep) in Hrun.
    + by apply IH.
    + rewrite (IH _ Hrun Hk), fresh_pair_lookup.
    case_decide as Hd; [|done]. destruct Hd; congruence.
Qed.

(** After the loop every pair it went through has both its keys. *)
Lemma allocate_loop_present ps m m' p :
  for_each ps allocate m = (Returned tt, m') →
  p ∈ ps → both_present (ports m') p.
Proof.
  revert m. induction ps as [|[a b] ps IH]; intros m Hrun Hp.
  - by apply elem_of_nil in Hp.
  - apply elem_of_cons in Hp as [->|Hp].
    + destruct (allocate_cases a b m) as [[Hboth Hstep]|[_ Hstep]];
        rewrite (for_each_returned _ _ _ _ _ Hstep) in Hrun.
      * destruct (allocate_loop_returns ps m) as (m2 & Hrun2 & _ & _ & _ & Hk).
        rewrite Hrun in Hrun2. injection Hrun2 as <-.
        destruct Hboth. split; by apply Hk.
      * destruct (allocate_loop_returns ps (fresh_pair a b m))
          as (m2 & Hrun2 & _ & _ & _ & Hk).
        rewrite Hrun in Hrun2. injection Hrun2 as <-.
        split; apply Hk; rewrite fresh_pair_lookup; simpl;
          (case_decide as Hd; [eauto | naive_solver]).
    + destruct (allocate_cases a b m) as [[_ Hstep]|[_ Hstep]];
        rewrite (for_each_returned _ _ _ _ _ Hstep) in Hrun; by eapply IH.
Qed.

(** When every pair has both its keys the loop changes nothing. *)
Lemma allocate_loop_fixpoint ps m :
  (∀ p, p ∈ ps → both_present (ports m) p) →
  for_each ps allocate m = (Returned tt, m).
Proof.
  induction ps as [|[a b] ps IH]; intros Hall; [done|].
  rewrite (for_each_returned _ _ _ _ m).
  - apply IH. intros p Hp. apply Hall. by right.
  - apply allocate_existing, Hall. by left.
Qed.

Lemma allocate_loop_counter ps m m' :
  for_each ps allocate m = (Returned tt, m') →
  counter_above_ports (data m) → counter_above_ports (data m').
Proof.
  revert m. induction ps as [|[a b] ps IH]; intros m Hrun Hinv.
  - by injection Hrun as <-.
  - destruct (allocate_cases a b m) as [[_ Hstep]|[_ Hstep]];
      rewrite (for_each_returned _ _ _ _ _ Hstep) in Hrun.
    + by eapply IH.
    + eapply IH; [done|]. intros k v. rewrite fresh_pair_lookup. simpl.
      case_decide.
      * intros [= <-]. lia.
      * intros Hv. apply Hinv in Hv. lia.
Qed.
End allocate_loop.

(** ** The pairs of [itertools.combinations] *)

Section combinations.
Context {A : Type}.
Implicit Types (l : list A) (a b x : A).

Lemma elem_of_combinations2 l a b :
  (a, b) ∈ combinations2 l → a ∈ l ∧ b ∈ l.
Proof.
  induction l as [|x l IH]; simpl; [by intros ?%elem_of_nil|].
  rewrite elem_of_app, list_elem_of_fmap. intros [(y & [= -> ->] & Hy)|Hin].
  - split; [by left | by right].
  - destruct (IH Hin). split; by right.
Qed.

(** Every two distinct members are paired, in one order or the other. *)
Lemma combinations2_complete l a b :
  a ∈ l → b ∈ l → a ≠ b → (a, b) ∈ combinations2 l ∨ (b, a) ∈ combinations2 l.
Proof.
  induction l as [|x l IH]; [by intros ?%elem_of_nil|].
  simpl. rewrite !elem_of_cons, !elem_of_app, !list_elem_of_fmap.
  intros [->|Ha] [->|Hb] Hne; [done | | |].
  - left; left. by exists b.
  - right; left. by exists a.
  - destruct (IH Ha Hb Hne); [left | right]; by right.
Qed.

Lemma combinations2_distinct l a b :
  NoDup l → (a, b) ∈ combinations2 l → a ≠ b.
Proof.
  induction 1 as [|x l Hx Hl IH]; simpl; [by intros ?%elem_of_nil|].
  rewrite elem_of_app, list_elem_of_fmap. intros [(y & [= -> ->] & Hy)|Hin].
  - by intros ->.
  - by apply IH.
Qed.

Lemma combinations2_one_order l a b :
  NoDup l → (a, b) ∈ combinations2 l → (b, a) ∉ combinations2 l.
Proof.
  induction 1 as [|x l Hx Hl IH]; simpl; [by intros ?%elem_of_nil|].
  rewrite !elem_of_app, !list_elem_of_fmap.
  intros [(y & Heq & Hy)|Hin] [(z & Heq' & Hz)|Hin']; simplify_eq.
  - done.
  - by apply elem_of_combinations2 in Hin' as [? ?].
  - by apply elem_of_combinations2 in Hin as [? ?].
  - by apply IH.
Qed.

Lemma NoDup_combinations2 l : NoDup l → NoDup (combinations2 l).
Proof.
  induction 1 as [|x l Hx Hl IH]; simpl; [constructor|].
  apply NoDup_app. split_and!; [| |done].
  - apply NoDup_fmap_2_strong; [|done]. by intros y z _ _ [= ->].
  - intros [a b] (y & [= -> ->] & Hy)%list_elem_of_fmap Hin.
    by apply elem_of_combinations2 in Hin as [? _].
Qed.
End combinations.

(** With comma-free identifiers, no key is shared by two pairs of the loop,
    nor by the two orderings of one pair. *)
Lemma NoDup_pair_keys (l : list string) :
  NoDup l → Forall comma_free l → NoDup (pair_keys (combinations2 l)).
Proof.
  intros Hl Hfree. rewrite Forall_forall in Hfree.
  assert (∀ a b a' b', (a, b) ∈ combinations2 l →
            key a' b' = key a b → a' = a ∧ b' = b) as Hinj.
  { intros a b a' b' [Ha Hb]%elem_of_combinations2. apply key_inj; auto. }
  apply NoDup_bind; [| |by apply NoDup_combinations2].
  - intros [a b] [a' b'] k Hp Hp'. simpl. rewrite !elem_of_cons.
    intros [->|[->|[]%elem_of_nil]] [Hk|[Hk|[]%elem_of_nil]].
    + by destruct (Hinj _ _ _ _ Hp' Hk) as [-> ->].
    + apply elem_of_combinations2 in Hp' as Hp''. destruct Hp'' as [Ha' Hb'].
      destruct (key_inj b' a' a b) as [-> ->]; [by apply Hfree.. | done |].
      by destruct (combinations2_one_order l _ _ Hl Hp).
    + apply elem_of_combinations2 in Hp' as Hp''. destruct Hp'' as [Ha' Hb'].
      destruct (key_inj a' b' b a) as [-> ->]; [by apply Hfree.. | done |].
      by destruct (combinations2_one_order l _ _ Hl Hp).
    + apply elem_of_combinations2 in Hp' as Hp''. destruct Hp'' as [Ha' Hb'].
      destruct (key_inj b' a' b a) as [-> ->]; [by apply Hfree.. | done |]. done.
  - intros [a b] Hp. simpl. apply NoDup_cons. split; [|apply NoDup_singleton].
    rewrite list_elem_of_singleton. intros Hk.
    destruct (Hinj _ _ _ _ Hp (eq_sym Hk)) as [-> _].
    by apply (combinations2_distinct l a a).
Qed.

(** ** What the loop does to each pair *)

Section allocate_pairs.
Implicit Types (m : mem) (a b k : string) (ps : list (string * string)).

Local Abbreviation ports m := (igp_wg_ports (data m)).
Local Abbreviation counter m := (next_port (data m)).

Lemma allocate_loop_mono ps m m' :
  for_each ps allocate m = (Returned tt, m') →
  counter m ≤ counter m' ∧ (∀ k, is_Some (ports m !! k) → is_Some (ports m' !! k)).
Proof.
  intros Hrun. destruct (allocate_loop_returns ps m) as (m2 & Hrun2 & _ & _ & Hc & Hk).
  rewrite Hrun in Hrun2. injection Hrun2 as <-. done.
Qed.

Lemma missing_pairs_agree (P1 P2 : gmap string Z) ps :
  (∀ k, k ∈ pair_keys ps → P1 !! k = P2 !! k) →
  missing_pairs P1 ps = missing_pairs P2 ps.
Proof.
  unfold missing_pairs. induction ps as [|[a b] ps IH]; intros Hagree; [done|].
  assert (both_present P1 (a, b) ↔ both_present P2 (a, b)) as Hiff.
  { unfold both_present. simpl.
    rewrite !Hagree; [done | |]; apply elem_of_pair_keys; exists a, b;
      (split; [by left | auto]). }
  rewrite !filter_cons. rewrite IH.
  - repeat case_decide; tauto.
  - intros k (a' & b' & Hp & Hk)%elem_of_pair_keys. apply Hagree.
    apply elem_of_pair_keys. exists a', b'. split; [by right | done].
Qed.

Lemma NoDup_pair_keys_cons a b ps :
  NoDup (pair_keys ((a, b) :: ps)) →
  key a b ≠ key b a ∧ (key a b ∉ pair_keys ps) ∧ (key b a ∉ pair_keys ps) ∧
  NoDup (pair_keys ps).
Proof.
  unfold pair_keys. rewrite bind_cons. simpl.
  rewrite !NoDup_cons, !not_elem_of_cons. tauto.
Qed.

(** A pair with both keys keeps them; a pair lacking one gets the counter
    of the moment under both keys. *)
Lemma allocate_loop_pair ps m m' a b :
  for_each ps allocate m = (Returned tt, m') →
  NoDup (pair_keys ps) → (a, b) ∈ ps →
  (both_present (ports m) (a, b) →
     ports m' !! key a b = ports m !! key a b ∧
     ports m' !! key b a = ports m !! key b a) ∧
  (¬ both_present (ports m) (a, b) →
     ∃ v, counter m ≤ v < counter m' ∧
       ports m' !! key a b = Some v ∧ ports m' !! key b a = Some v).
Proof.
  revert m. induction ps as [|[a' b'] ps IH]; intros m Hrun Hnodup Hp.
  { by apply elem_of_nil in Hp. }
  apply NoDup_pair_keys_cons in Hnodup as (Hne & Hab & Hba & Hnodup).
  apply elem_of_cons in Hp as [[= -> ->]|Hp].
  - destruct (allocate_cases a' b' m) as [[Hboth Hstep]|[Hmiss Hstep]];
      rewrite (for_each_returned _ _ _ _ _ Hstep) in Hrun.
    + split; [|done]. intros _.
      by rewrite !(allocate_loop_frame _ _ _ _ Hrun).
    + split; [done|]. intros _. exists (counter m).
      rewrite !(allocate_loop_frame _ _ _ _ Hrun) by done.
      rewrite !fresh_pair_lookup. rewrite !decide_True by auto.
      apply allocate_loop_mono in Hrun as [Hc _]. simpl in Hc.
      split; [lia | done].
  - assert (∀ k, k = key a b ∨ k = key b a → k ≠ key a' b' ∧ k ≠ key b' a') as Hk.
    { intros k Hk. assert (k ∈ pair_keys ps) as Hin.
      { apply elem_of_pair_keys. by exists a, b. }
      split; by intros ->. }
    destruct (allocate_cases a' b' m) as [[Hboth Hstep]|[Hmiss Hstep]];
      rewrite (for_each_returned _ _ _ _ _ Hstep) in Hrun.
    + by apply IH.
    + destruct (IH _ Hrun Hnodup Hp) as [IH1 IH2].
      assert (∀ k, k = key a b ∨ k = key b a →
                ports (fresh_pair a' b' m) !! k = ports m !! k) as Hsame.
      { intros k Hk'. rewrite fresh_pair_lookup.
        destruct (Hk k Hk'). rewrite decide_False; [done | tauto]. }
      unfold both_present in *. simpl in IH1, IH2 |- *.
      rewrite !Hsame in IH1, IH2 by auto. split; [done|].
      intros Hmiss'. destruct (IH2 Hmiss') as (v & Hv & Hlookups).
      exists v. split; [lia | done].
Qed.

(** The counter advances by one for every pair that lacked a key. *)
Lemma allocate_loop_count ps m m' :
  for_each ps allocate m = (Returned tt, m') →
  NoDup (pair_keys ps) →
  counter m' = counter m + Z.of_nat (length (missing_pairs (ports m) ps)).
Proof.
  revert m. induction ps as [|[a b] ps IH]; intros m Hrun Hnodup.
  { injection Hrun as <-. simpl. lia. }
  apply NoDup_pair_keys_cons in Hnodup as (Hne & Hab & Hba & Hnodup).
  destruct (allocate_cases a b m) as [[Hboth Hstep]|[Hmiss Hstep]];
    rewrite (for_each_returned _ _ _ _ _ Hstep) in Hrun.
  - rewrite (IH _ Hrun Hnodup). unfold missing_pairs.
    rewrite filter_cons_False; [done | by intros []].
  - rewrite (IH _ Hrun Hnodup). unfold missing_pairs at 2.
    rewrite filter_cons_True by done. fold (missing_pairs (ports m) ps).
    rewrite (missing_pairs_agree (ports (fresh_pair a b m)) (ports m)).
    + simpl. lia.
    + intros k Hk. rewrite fresh_pair_lookup.
      rewrite decide_False; [done|]. by intros [->| ->].
Qed.

(** An entry is left alone when every pair of the loop that would write its
    key has both keys in the table. *)
Lemma allocate_loop_keeps ps m m' k v :
  for_each ps allocate m = (Returned tt, m') →
  ports m !! k = Some v →
  (∀ a b, (a, b) ∈ ps → k = key a b ∨ k = key b a → both_present (ports m) (a, b)) →
  ports m' !! k = Some v.
Proof.
  revert m. induction ps as [|[a b] ps IH]; intros m Hrun Hv Hcomplete.
  { by injection Hrun as <-. }
  destruct (allocate_cases a b m) as [[Hboth Hstep]|[Hmiss Hstep]];
    rewrite (for_each_returned _ _ _ _ _ Hstep) in Hrun.
  - apply (IH m); [done | done |]. intros a' b' Hp. apply Hcomplete. by right.
  - assert (¬ (k = key a b ∨ k = key b a)) as Hk.
    { intros Hk. apply Hmiss, Hcomplete; [by left | done]. }
    apply (IH (fresh_pair a b m)); [done | |].
    + rewrite fresh_pair_lookup. by rewrite decide_False.
    + intros a' b' Hp Hk'. destruct (Hcomplete a' b') as [Hx Hy]; [by right | done |].
      split; rewrite fresh_pair_lookup; (case_decide; [eauto | done]).
Qed.

(** The loop makes the table symmetric when the only asymmetries it finds
    are pairs of its own that lack a key. *)
Lemma allocate_loop_symmetric ps m m' :
  for_each ps allocate m = (Returned tt, m') →
  (∀ a b, (a, b) ∈ ps → comma_free a ∧ comma_free b) →
  symmetric_outside (ports m) ps → symmetric (ports m').
Proof.
  revert m. induction ps as [|[a b] ps IH]; intros m Hrun Hfree Hsym.
  { injection Hrun as <-. intros x y.
    destruct (decide (ports m !! key x y = ports m !! key y x)) as [|Hne]; [done|].
    by destruct (Hsym x y Hne) as [[?%elem_of_nil|?%elem_of_nil] _]. }
  assert (∀ a' b', (a', b') ∈ ps → comma_free a' ∧ comma_free b') as Hfree'.
  { intros a' b' Hp. apply Hfree. by right. }
  destruct (Hfree a b) as [Ha Hb]; [by left|].
  destruct (allocate_cases a b m) as [[Hboth Hstep]|[Hmiss Hstep]];
    rewrite (for_each_returned _ _ _ _ _ Hstep) in Hrun.
  - apply (IH m); [done | done |]. intros x y Hne.
    destruct (Hsym x y Hne) as [Hin Hlack]. split; [|done].
    rewrite !elem_of_cons in Hin.
    destruct Hin as [[[= -> ->]|Hin]|[[= -> ->]|Hin]]; [done | by left | | by right].
    by apply both_present_swap in Hboth.
  - apply (IH (fresh_pair a b m)); [done | done |].
    intros x y. rewrite !fresh_pair_lookup.
    assert (x = a ∧ y = b ∨ x = b ∧ y = a ↔ key x y = key a b ∨ key x y = key b a) as H1.
    { split; [intros [[-> ->]|[-> ->]]; auto|].
      intros [Hk|Hk]; apply key_inj in Hk; auto. }
    assert (x = a ∧ y = b ∨ x = b ∧ y = a ↔ key y x = key a b ∨ key y x = key b a) as H2.
    { split; [intros [[-> ->]|[-> ->]]; auto|].
      intros [Hk|Hk]; apply key_inj in Hk; tauto. }
    repeat case_decide; try tauto. intros Hne.
    destruct (Hsym x y Hne) as [Hin Hlack]. split.
    + rewrite !elem_of_cons in Hin.
      destruct Hin as [[[= -> ->]|Hin]|[[= -> ->]|Hin]]; [tauto | by left | tauto | by right].
    + unfold both_present. cbn [fst snd]. rewrite !fresh_pair_lookup.
      rewrite !decide_False by tauto. done.
Qed.
End allocate_pairs.

(** ** Dictionaries of sets *)

Section dict_of_sets.
Implicit Types (d : gmap string (gset string)) (k x : string).

Lemma neighbours_of_setdefault k d k' :
  neighbours_of (setdefault k d) k' = neighbours_of d k'.
Proof.
  unfold setdefault, neighbours_of. destruct (d !! k) as [s|] eqn:Hk; [done|].
  destruct (decide (k = k')) as [<-|Hne].
  - by rewrite lookup_insert_eq, Hk.
  - by rewrite lookup_insert_ne.
Qed.

Lemma dom_setdefault k d : dom (setdefault k d) = {[k]} ∪ dom d.
Proof.
  unfold setdefault. destruct (d !! k) as [s|] eqn:Hk.
  - apply (elem_of_dom_2 d) in Hk. symmetry.
    by apply subseteq_union_1_L, singleton_subseteq_l.
  - by rewrite dom_insert_L.
Qed.

Lemma setdefault_is_Some k d : is_Some (setdefault k d !! k).
Proof. apply elem_of_dom. rewrite dom_setdefault. set_solver. Qed.

Lemma neighbours_of_alter (f : gset string → gset string) k d k' :
  is_Some (d !! k) →
  neighbours_of (alter f k d) k' =
    if decide (k' = k) then f (neighbours_of d k) else neighbours_of d k'.
Proof.
  intros [s Hs]. unfold neighbours_of. case_decide as Hk.
  - subst k'. by rewrite lookup_alter_eq, Hs.
  - by rewrite lookup_alter_ne.
Qed.

Lemma alter_is_Some (f : gset string → gset string) k d k' :
  is_Some (alter f k d !! k') ↔ is_Some (d !! k').
Proof. by rewrite <-!elem_of_dom, dom_alter_L. Qed.

Lemma neighbours_of_dom d k x : x ∈ neighbours_of d k → k ∈ dom d.
Proof.
  unfold neighbours_of. rewrite elem_of_dom.
  destruct (d !! k); [eauto|]. simpl. by intros ?%not_elem_of_empty.
Qed.

Lemma list_to_set_nonempty (l : list string) :
  list_to_set (C := gset string) l ≠ ∅ ↔ l ≠ [].
Proof.
  destruct l as [|x l]; simpl.
  - split; intros H; by destruct H.
  - split; [done|]. intros _. set_solver.
Qed.
End dict_of_sets.

(** ** One visit of the first loop *)

Section visit_step.
Implicit Types (m : mem) (mesh : list string) (s k x : string) (sd : serverdata).

Local Abbreviation adjacency m := (igp_neighbours (data m)).

Lemma same_ports_refl m : same_ports m m.
Proof. done. Qed.

Lemma same_ports_trans m1 m2 m3 :
  same_ports m1 m2 → same_ports m2 m3 → same_ports m1 m3.
Proof. unfold same_ports. intros [-> ->] [-> ->]. done. Qed.

Lemma add_neighbour_run k s m :
  add_neighbour k s m =
    (Returned tt, on_neighbours (alter (λ n, n ∪ {[s]}) k)
                    (on_neighbours (setdefault k) m)).
Proof. reflexivity. Qed.

(** Telling the upstreams in [l] that [s] is their neighbour. *)
Lemma add_neighbours_run s (l : list string) m :
  ∃ m', for_each l (λ neighbour, add_neighbour neighbour s) m = (Returned tt, m') ∧
    same_ports m m' ∧ seen_shortnames m' = seen_shortnames m ∧
    dom (adjacency m') = dom (adjacency m) ∪ list_to_set l ∧
    ∀ k x, x ∈ neighbours_of (adjacency m') k ↔
           x ∈ neighbours_of (adjacency m) k ∨ (k ∈ l ∧ x = s).
Proof.
  revert m. induction l as [|u l IH]; intros m.
  - exists m. split_and!; [done.. | |].
    + simpl. by rewrite (right_id_L ∅ (∪)).
    + intros k x. rewrite elem_of_nil. tauto.
  - rewrite (for_each_returned (λ neighbour, add_neighbour neighbour s) u l m _
               (add_neighbour_run u s m)).
    destruct (IH (on_neighbours (alter (λ n, n ∪ {[s]}) u)
                    (on_neighbours (setdefault u) m)))
      as (m' & Hrun & Hports & Hseen & Hdom & Hin).
    exists m'. split_and!; [done.. | |].
    + rewrite Hdom. simpl. rewrite dom_alter_L, dom_setdefault.
      apply set_eq. intros y. rewrite !elem_of_union, elem_of_singleton. tauto.
    + intros k x. rewrite Hin. simpl.
      rewrite neighbours_of_alter by apply setdefault_is_Some.
      rewrite !neighbours_of_setdefault, elem_of_cons.
      case_decide as Hk.
      * subst k. rewrite elem_of_union, elem_of_singleton. tauto.
      * split; [tauto|]. intros [?|[[?|?] ?]]; [tauto | congruence | tauto].
Qed.

Lemma visit_duplicate mesh s sd m first :
  seen_shortnames m !! shortname sd = Some first →
  visit mesh s sd m =
    (Raised (DuplicateShortname (shortname sd) first s),
     on_neighbours (setdefault s) m).
Proof.
  intros Hseen. unfold visit, mbind, M_bind, modify, gets, raise. simpl.
  by rewrite Hseen.
Qed.

Lemma visit_misplaced mesh s sd m :
  seen_shortnames m !! shortname sd = None →
  ¬ well_placed mesh s sd →
  ∃ m', visit mesh s sd m = (Raised (MustDefineUpstreamsOrMesh s), m') ∧
    same_ports m m'.
Proof.
  intros Hseen Hbad. unfold visit, mbind, M_bind, modify, gets, raise. simpl.
  rewrite Hseen. unfold well_placed in Hbad.
  destruct (decide (s ∈ mesh)) as [Hmesh|Hmesh].
  - rewrite !bool_decide_eq_true_2 by done.
    unfold remove, mbind, M_bind, modify, gets, raise. simpl.
    rewrite bool_decide_eq_true_2.
    2:{ rewrite neighbours_of_alter by apply setdefault_is_Some.
        rewrite decide_True by done. rewrite elem_of_union, elem_of_list_to_set. auto. }
    rewrite bool_decide_eq_true_2.
    2:{ apply list_to_set_nonempty. tauto. }
    simpl. eexists. split; [reflexivity|]. by split.
  - rewrite !bool_decide_eq_false_2 by done. simpl.
    rewrite bool_decide_eq_false_2.
    2:{ rewrite list_to_set_nonempty. intros Hne. tauto. }
    simpl. eexists. split; [reflexivity|]. by split.
Qed.

Lemma visit_returns mesh s sd m :
  seen_shortnames m !! shortname sd = None →
  well_placed mesh s sd →
  ∃ m', visit mesh s sd m = (Returned tt, m') ∧
    same_ports m m' ∧
    seen_shortnames m' = <[shortname sd := s]> (seen_shortnames m) ∧
    dom (adjacency m') = dom (adjacency m) ∪ {[s]} ∪ list_to_set (igp_upstreams sd) ∧
    ∀ k x, x ∈ neighbours_of (adjacency m') k ↔
      (x ∈ neighbours_of (adjacency m) k ∧ ¬ (k = s ∧ s ∈ mesh ∧ x = s)) ∨
      (k = s ∧ s ∈ mesh ∧ x ∈ mesh ∧ x ≠ s) ∨
      (k = s ∧ x ∈ igp_upstreams sd) ∨
      (k ∈ igp_upstreams sd ∧ x = s).
Proof.
  intros Hseen Hok. unfold visit, mbind, M_bind, modify, gets, raise. simpl.
  rewrite Hseen. destruct Hok as [[Hmesh Hups]|[Hmesh Hups]].
  - rewrite !bool_decide_eq_true_2 by done.
    unfold remove, mbind, M_bind, modify, gets, raise. simpl.
    rewrite bool_decide_eq_true_2.
    2:{ rewrite neighbours_of_alter by apply setdefault_is_Some.
        rewrite decide_True by done. rewrite elem_of_union, elem_of_list_to_set. auto. }
    rewrite Hups. simpl. rewrite bool_decide_eq_false_2 by (by intros []).
    simpl. rewrite elements_empty. simpl. unfold mret, M_ret.
    eexists. split; [done|]. split_and!; [done | done | |].
    + simpl. rewrite !dom_alter_L, dom_setdefault.
      apply set_eq. intros y. rewrite !elem_of_union, elem_of_singleton.
      rewrite elem_of_empty. tauto.
    + intros k x. simpl. rewrite !elem_of_nil.
      destruct (decide (k = s)) as [->|Hk].
      * repeat (rewrite neighbours_of_alter
                  by (rewrite ?alter_is_Some; apply setdefault_is_Some);
                rewrite decide_True by done).
        rewrite neighbours_of_setdefault, (right_id_L ∅ (∪)).
        rewrite elem_of_difference, elem_of_union, elem_of_singleton, elem_of_list_to_set.
        intuition congruence.
      * repeat (rewrite neighbours_of_alter
                  by (rewrite ?alter_is_Some; apply setdefault_is_Some);
                rewrite decide_False by done).
        rewrite neighbours_of_setdefault. tauto.
  - rewrite !bool_decide_eq_false_2 by done. simpl.
    rewrite bool_decide_eq_true_2 by (by apply list_to_set_nonempty). simpl.
    match goal with |- context [for_each _ _ ?m0] =>
      destruct (add_neighbours_run s (elements (list_to_set (C := gset string) (igp_upstreams sd))) m0)
        as (m' & Hrun & [Hnp Hports] & Hseen' & Hdom & Hin) end.
    exists m'. split; [done|]. simpl in *. split_and!; [done.. | |].
    + rewrite Hdom. rewrite dom_alter_L, dom_setdefault.
      rewrite list_to_set_elements_L.
      apply set_eq. intros y. rewrite !elem_of_union, elem_of_singleton. tauto.
    + intros k x. rewrite Hin.
      rewrite neighbours_of_alter by apply setdefault_is_Some.
      rewrite !neighbours_of_setdefault.
      rewrite elem_of_elements, elem_of_list_to_set.
      case_decide as Hk.
      * subst k. rewrite elem_of_union, elem_of_list_to_set. tauto.
      * tauto.
Qed.
End visit_step.

(** ** The loop over the routers *)

Section neighbours_loop.
Implicit Types (m : mem) (mesh : list string) (s k x : string) (sd : serverdata).
Implicit Types (l : list (string * serverdata)) (taken : gset string).

Local Abbreviation adjacency m := (igp_neighbours (data m)).
Local Abbreviation visit_all mesh l :=
  (for_each l (λ '(server, sd), visit mesh server sd)).

Lemma visit_cases mesh s sd m :
  (∃ first, seen_shortnames m !! shortname sd = Some first ∧
     visit mesh s sd m =
       (Raised (DuplicateShortname (shortname sd) first s),
        on_neighbours (setdefault s) m)) ∨
  (seen_shortnames m !! shortname sd = None ∧ ¬ well_placed mesh s sd ∧
     ∃ m', visit mesh s sd m = (Raised (MustDefineUpstreamsOrMesh s), m') ∧
       same_ports m m') ∨
  (seen_shortnames m !! shortname sd = None ∧ well_placed mesh s sd ∧
     ∃ m', visit mesh s sd m = (Returned tt, m')).
Proof.
  destruct (seen_shortnames m !! shortname sd) as [first|] eqn:Hseen.
  - left. exists first. split; [done|]. by apply visit_duplicate.
  - right. destruct (decide (well_placed mesh s sd)) as [Hok|Hbad].
    + right. split_and!; [done..|].
      destruct (visit_returns mesh s sd m Hseen Hok) as (m' & Hrun & _). eauto.
    + left. split_and!; [done..|]. by apply visit_misplaced.
Qed.

(** The first loop leaves the ports and the counter alone, however it ends. *)
Lemma visit_same_ports mesh s sd m o m' :
  visit mesh s sd m = (o, m') → same_ports m m'.
Proof.
  destruct (visit_cases mesh s sd m)
    as [(first & _ & Hrun)|[(Hseen & _ & m1 & Hrun & Hports)|(Hseen & Hok & _)]].
  - rewrite Hrun. by intros [= <- <-].
  - rewrite Hrun. by intros [= <- <-].
  - destruct (visit_returns mesh s sd m Hseen Hok) as (m1 & Hrun & Hports & _).
    rewrite Hrun. by intros [= <- <-].
Qed.

Lemma visit_all_same_ports mesh l m o m' :
  visit_all mesh l m = (o, m') → same_ports m m'.
Proof.
  revert m. induction l as [|[s sd] l IH]; intros m.
  - by intros [= <- <-].
  - rewrite for_each_cons. destruct (visit mesh s sd m) as [[[]|e] m1] eqn:Hstep.
    + intros Hrun. apply visit_same_ports in Hstep. apply IH in Hrun.
      by eapply same_ports_trans.
    + intros [= <- <-]. by apply visit_same_ports in Hstep.
Qed.

Lemma unique_names_cons taken s sd l :
  unique_names taken ((s, sd) :: l) ↔
  (shortname sd ∉ taken) ∧ unique_names ({[shortname sd]} ∪ taken) l.
Proof.
  unfold unique_names, shortnames. simpl. rewrite NoDup_cons. split.
  - intros [[Hnew Hnodup] Hfresh]. split_and!; [apply Hfresh; by left | done |].
    intros n Hn. rewrite elem_of_union, elem_of_singleton.
    intros [->|Hin]; [done|]. by apply (Hfresh n); [right|].
  - intros (Hnew & Hnodup & Hfresh). split_and!; [|done|].
    + intros Hin. apply (Hfresh _ Hin). rewrite elem_of_union, elem_of_singleton. auto.
    + intros n [->|Hin]%elem_of_cons; [done|].
      intros Htaken. apply (Hfresh _ Hin). rewrite elem_of_union. auto.
Qed.

Lemma unique_names_empty l : unique_names ∅ l ↔ NoDup (shortnames l).
Proof.
  unfold unique_names. split; [by intros [? _]|]. intros Hnodup. split; [done|].
  intros n _. apply not_elem_of_empty.
Qed.

(** The loop returns exactly when every router is well placed and the
    shortnames are unique. *)
Lemma visit_all_returns mesh l m :
  (∃ m', visit_all mesh l m = (Returned tt, m')) ↔
  Forall (λ p, well_placed mesh p.1 p.2) l ∧
  unique_names (dom (seen_shortnames m)) l.
Proof.
  revert m. induction l as [|[s sd] l IH]; intros m.
  - split; [|by exists m]. intros _. split; [constructor|].
    split; [constructor|]. by intros n ?%elem_of_nil.
  - rewrite for_each_cons, Forall_cons, unique_names_cons, not_elem_of_dom. simpl.
    destruct (visit_cases mesh s sd m)
      as [(first & Hseen & Hrun)|[(Hseen & Hbad & m1 & Hrun & _)|(Hseen & Hok & _)]].
    + rewrite Hrun, Hseen. split; [by intros [m' [=]] | by intros (_ & [=] & _)].
    + rewrite Hrun. split; [by intros [m' [=]] | tauto].
    + destruct (visit_returns mesh s sd m Hseen Hok)
        as (m1 & Hrun & _ & Hseen1 & _).
      rewrite Hrun, IH, Hseen1, dom_insert_L. tauto.
Qed.

(** The loop raises the constraint error for [s] exactly when [s] is the
    first router that fails a check, and it fails the constraint check. *)
Lemma visit_all_misplaced mesh l m s :
  (∃ m', visit_all mesh l m = (Raised (MustDefineUpstreamsOrMesh s), m')) ↔
  ∃ l1 sd l2, l = l1 ++ (s, sd) :: l2 ∧
    Forall (λ p, well_placed mesh p.1 p.2) l1 ∧
    unique_names (dom (seen_shortnames m)) (l1 ++ [(s, sd)]) ∧
    ¬ well_placed mesh s sd.
Proof.
  revert m. induction l as [|[s0 sd0] l IH]; intros m.
  - split; [by intros [m' [=]]|]. intros (l1 & sd & l2 & Heq & _).
    by destruct l1.
  - rewrite for_each_cons.
    destruct (visit_cases mesh s0 sd0 m)
      as [(first & Hseen & Hrun)|[(Hseen & Hbad & m1 & Hrun & _)|(Hseen & Hok & _)]].
    + rewrite Hrun. split; [by intros [m' [=]]|].
      intros (l1 & sd & l2 & Heq & _ & Huniq & _). exfalso.
      destruct l1 as [|p l1]; simplify_eq/=;
        apply unique_names_cons in Huniq as [Hnew _];
        by rewrite not_elem_of_dom, Hseen in Hnew.
    + rewrite Hrun. split.
      * intros [m' [= <- <-]]. exists [], sd0, l. split_and!; [done | constructor | | done].
        apply unique_names_cons. rewrite not_elem_of_dom. split; [done|].
        split; [constructor | by intros n ?%elem_of_nil].
      * intros (l1 & sd & l2 & Heq & Hwp & _ & Hbad').
        destruct l1 as [|p l1]; simplify_eq/=; [eauto|].
        by apply Forall_cons in Hwp as [? _].
    + destruct (visit_returns mesh s0 sd0 m Hseen Hok)
        as (m1 & Hrun & _ & Hseen1 & _).
      rewrite Hrun, IH, Hseen1, dom_insert_L. split.
      * intros (l1 & sd & l2 & -> & Hwp & Huniq & Hbad).
        exists ((s0, sd0) :: l1), sd, l2. split_and!; [done | | | done].
        -- by constructor.
        -- simpl. apply unique_names_cons. by rewrite not_elem_of_dom.
      * intros (l1 & sd & l2 & Heq & Hwp & Huniq & Hbad).
        destruct l1 as [|p l1]; simplify_eq/=; [done|].
        apply Forall_cons in Hwp as [_ Hwp].
        apply unique_names_cons in Huniq as [_ Huniq].
        exists l1, sd, l2. done.
Qed.

(** [set.remove] never fails in the loop. *)
Lemma visit_all_no_KeyError mesh l m k m' :
  visit_all mesh l m ≠ (Raised (KeyError k), m').
Proof.
  revert m. induction l as [|[s sd] l IH]; intros m; [done|].
  rewrite for_each_cons.
  destruct (visit_cases mesh s sd m)
    as [(first & _ & Hrun)|[(_ & _ & m1 & Hrun & _)|(_ & _ & m1 & Hrun)]];
    rewrite Hrun; [done | done | apply IH].
Qed.
End neighbours_loop.

(** ** The neighbours the loop computes *)

Section neighbours_result.
Implicit Types (m : mem) (mesh : list string) (s k x : string) (sd : serverdata).
Implicit Types (l : list (string * serverdata)).

Local Abbreviation adjacency m := (igp_neighbours (data m)).
Local Abbreviation visit_all mesh l :=
  (for_each l (λ '(server, sd), visit mesh server sd)).

Lemma elem_of_upstreams_of l k :
  k ∈ upstreams_of l ↔ ∃ s sd, (s, sd) ∈ l ∧ k ∈ igp_upstreams sd.
Proof.
  unfold upstreams_of. rewrite elem_of_union_list. split.
  - intros (X & (p & -> & Hp)%list_elem_of_fmap & Hk).
    destruct p as [s sd]. exists s, sd. by rewrite elem_of_list_to_set in Hk.
  - intros (s & sd & Hp & Hk). exists (list_to_set (igp_upstreams sd)).
    rewrite list_elem_of_fmap, elem_of_list_to_set. split; [|done]. by exists (s, sd).
Qed.

(** Two dictionaries of sets with the same keys and the same members. *)
Lemma dict_of_sets_eq (d1 d2 : gmap string (gset string)) :
  dom d1 = dom d2 →
  (∀ k x, x ∈ neighbours_of d1 k ↔ x ∈ neighbours_of d2 k) →
  d1 = d2.
Proof.
  intros Hdom Hin. apply map_eq. intros k.
  assert (is_Some (d1 !! k) ↔ is_Some (d2 !! k)) as Hsome.
  { by rewrite <-!elem_of_dom, Hdom. }
  specialize (Hin k). unfold neighbours_of in Hin.
  destruct (d1 !! k) as [X|] eqn:H1, (d2 !! k) as [Y|] eqn:H2; simpl in Hin.
  - f_equal. by apply set_eq.
  - destruct Hsome as [[? [=]] _]. eauto.
  - destruct Hsome as [_ [? [=]]]. eauto.
  - done.
Qed.

(** The keys and the members of the table after the loop, from those
    before it.  The routers are the keys of a dictionary ([NoDup]), and a
    mesh router still to be visited is not yet its own neighbour. *)
Lemma visit_all_adjacency mesh l m m' :
  visit_all mesh l m = (Returned tt, m') →
  NoDup l.*1 →
  (∀ k, k ∈ l.*1 → k ∈ mesh → k ∉ neighbours_of (adjacency m) k) →
  dom (adjacency m') = dom (adjacency m) ∪ list_to_set l.*1 ∪ upstreams_of l ∧
  ∀ k x, x ∈ neighbours_of (adjacency m') k ↔
    x ∈ neighbours_of (adjacency m) k ∨
    (k ∈ l.*1 ∧ k ∈ mesh ∧ x ∈ mesh ∧ x ≠ k) ∨
    (∃ sd, (k, sd) ∈ l ∧ x ∈ igp_upstreams sd) ∨
    (∃ sd, (x, sd) ∈ l ∧ k ∈ igp_upstreams sd).
Proof.
  revert m. induction l as [|[s sd] l IH]; intros m Hrun Hnodup Hself.
  - injection Hrun as <-. split.
    + unfold upstreams_of. simpl. by rewrite !(right_id_L ∅ (∪)).
    + intros k x. split; [auto|].
      intros [?|[(?%elem_of_nil & _)|[(? & ?%elem_of_nil & _)|(? & ?%elem_of_nil & _)]]];
        done.
  - rewrite for_each_cons in Hrun.
    destruct (visit_cases mesh s sd m)
      as [(first & _ & Hstep)|[(_ & _ & m1 & Hstep & _)|(Hseen & Hok & _)]];
      [by rewrite Hstep in Hrun.. |].
    destruct (visit_returns mesh s sd m Hseen Hok)
      as (m1 & Hstep & _ & _ & Hdom1 & Hin1).
    rewrite Hstep in Hrun. simpl in Hnodup. apply NoDup_cons in Hnodup as [Hs Hnodup].
    destruct (IH m1 Hrun Hnodup) as [Hdom Hin].
    { intros k Hk Hmesh. rewrite Hin1. simpl in Hself.
      assert (k ≠ s) as Hne by (by intros ->).
      intros [[Hold _]|[(-> & _)|[(-> & _)|(_ & ->)]]]; try done.
      apply (Hself k); [by right | done | done]. }
    split.
    + rewrite Hdom, Hdom1. unfold upstreams_of. simpl.
      apply set_eq. intros y. rewrite !elem_of_union, elem_of_singleton. tauto.
    + intros k x. rewrite Hin, Hin1. simpl. rewrite !elem_of_cons.
      assert (s ∈ mesh → s ∉ neighbours_of (adjacency m) s) as Hself'.
      { apply Hself. simpl. by left. }
      split.
      * intros [[[Hold _]|[(-> & Hmesh & Hx & Hne)|[(-> & Hx)|(Hk & ->)]]]
               |[(Hk & Hrest)|[(sd' & Hp & Hx)|(sd' & Hp & Hk)]]].
        -- by left.
        -- right; left. auto.
        -- right; right; left. exists sd. rewrite elem_of_cons. auto.
        -- right; right; right. exists sd. rewrite elem_of_cons. auto.
        -- right; left. auto.
        -- right; right; left. exists sd'. rewrite elem_of_cons. auto.
        -- right; right; right. exists sd'. rewrite elem_of_cons. auto.
      * intros [Hold|[([->|Hk] & Hmesh & Hx & Hne)
               |[(sd' & [[= -> ->]|Hp]%elem_of_cons & Hx)
                |(sd' & [[= -> ->]|Hp]%elem_of_cons & Hk)]]].
        -- left; left. split; [done|]. intros (-> & Hmesh & ->). by apply Hself'.
        -- left; right; left. auto.
        -- right; left. auto.
        -- left; right; right; left. auto.
        -- right; right; left. eauto.
        -- left; right; right; right. auto.
        -- right; right; right. eauto.
Qed.
End neighbours_result.

(** ** The first loop does not read the ports *)

Section ports_independence.
Implicit Types (m : mem) (d : settings).

Lemma on_neighbours_with_ports f d m :
  on_neighbours f (with_ports d m) = with_ports d (on_neighbours f m).
Proof. reflexivity. Qed.

Lemma add_neighbours_with_ports d s (l : list string) m :
  for_each l (λ neighbour, add_neighbour neighbour s) (with_ports d m) =
    let (o, m') := for_each l (λ neighbour, add_neighbour neighbour s) m in
    (o, with_ports d m').
Proof.
  revert m. induction l as [|u l IH]; intros m; [done|].
  rewrite !for_each_cons, !add_neighbour_run, !on_neighbours_with_ports.
  apply IH.
Qed.

Lemma visit_with_ports d mesh s sd m :
  visit mesh s sd (with_ports d m) =
    let (o, m') := visit mesh s sd m in (o, with_ports d m').
Proof.
  unfold visit, mbind, M_bind, modify, gets, raise. simpl.
  destruct (seen_shortnames m !! shortname sd); [done|].
  destruct (bool_decide (s ∈ mesh)); simpl.
  - unfold remove, mbind, M_bind, modify, gets, raise. simpl.
    destruct (bool_decide (s ∈ neighbours_of _ s)); [|done].
    destruct (bool_decide (_ ≠ ∅)); simpl; [done|].
    match goal with |- _ = (let (_, _) := for_each ?l _ ?m0 in _) =>
      exact (add_neighbours_with_ports d s l m0) end.
  - unfold mret, M_ret. destruct (bool_decide (_ ≠ ∅)); simpl; [|done].
    match goal with |- _ = (let (_, _) := for_each ?l _ ?m0 in _) =>
      exact (add_neighbours_with_ports d s l m0) end.
Qed.

Lemma visit_all_with_ports d mesh (l : list (string * serverdata)) m :
  for_each l (λ '(server, sd), visit mesh server sd) (with_ports d m) =
    let (o, m') := for_each l (λ '(server, sd), visit mesh server sd) m in
    (o, with_ports d m').
Proof.
  revert m. induction l as [|[s sd] l IH]; intros m; [done|].
  rewrite !for_each_cons, visit_with_ports.
  destruct (visit mesh s sd m) as [[[]|e] m1]; [apply IH | done].
Qed.
End ports_independence.

(** ** The run as a whole *)

Section whole_run.
Implicit Types (hosts : inventory) (outfile : option settings) (m : mem).

Lemma main_body_derive hosts outfile :
  main_body hosts (initial outfile) =
    match derive hosts outfile with
    | (Returned _, m1) => populate_ports hosts m1
    | (Raised e, m1) => (Raised e, m1)
    end.
Proof. reflexivity. Qed.

Lemma derive_same_ports hosts outfile o m :
  derive hosts outfile = (o, m) → same_ports (initial outfile) m.
Proof.
  intros Hrun. apply visit_all_same_ports in Hrun. done.
Qed.

(** A run that reaches the end: both loops returned, and the file holds the
    [data] of the final memory. *)
Lemma main_returned hosts outfile out :
  main hosts outfile = (Returned tt, Some out) ↔
  ∃ m1 m2, derive hosts outfile = (Returned tt, m1) ∧
    populate_ports hosts m1 = (Returned tt, m2) ∧ out = data m2.
Proof.
  unfold main. rewrite main_body_derive. split.
  - destruct (derive hosts outfile) as [[[]|e] m1]; [|done].
    destruct (populate_ports hosts m1) as [[[]|e] m2] eqn:Hports; [|done].
    intros [= <-]. by exists m1, m2.
  - intros (m1 & m2 & -> & -> & ->). done.
Qed.

(** A run that fails: the first loop raised, and the file is as before. *)
Lemma main_raised hosts outfile e o :
  main hosts outfile = (Raised e, o) ↔
  o = outfile ∧ ∃ m, derive hosts outfile = (Raised e, m).
Proof.
  unfold main. rewrite main_body_derive.
  destruct (derive hosts outfile) as [[[]|e'] m1].
  - destruct (allocate_loop_returns (combinations2 (routers hosts)) m1)
      as (m2 & Hrun & _).
    unfold populate_ports. fold (routers hosts). rewrite Hrun.
    split; [done|]. by intros (_ & m & [=]).
  - split.
    + intros [= -> ->]. eauto.
    + intros (-> & m & [= -> _]). done.
Qed.

(** The port table and the counter of the output come from those read,
    by the second loop alone. *)
Lemma main_ports hosts outfile out :
  main hosts outfile = (Returned tt, Some out) →
  ∃ m1 m2, for_each (combinations2 (routers hosts)) allocate m1 = (Returned tt, m2) ∧
    next_port (data m1) = next_port (_read_previous_settings outfile) ∧
    igp_wg_ports (data m1) = igp_wg_ports (_read_previous_settings outfile) ∧
    out = data m2.
Proof.
  intros (m1 & m2 & Hderive & Hports & ->)%main_returned.
  apply derive_same_ports in Hderive as [Hnp Hp]. by exists m1, m2.
Qed.
End whole_run.

(** * The claims *)

Lemma main_two_mesh : main two_mesh None = (Returned tt, Some two_mesh_out).
Proof. vm_compute. reflexivity. Qed.

(** ** The port table *)

Section port_claims.
Implicit Types (hosts : inventory) (outfile : option settings) (out : settings).

(** C1, as stated, fails: the pair of [two_mesh] has the key "A,B" in
    [one_sided], with port 55000; the run stores the counter, 55001, under
    both keys instead, and advances the counter. *)
Lemma C1_one_sided_pair_is_renumbered :
  igp_wg_ports one_sided !! "A,B" = Some 55000 ∧
  next_port one_sided = 55001 ∧
  main two_mesh (Some one_sided) =
    (Returned tt,
     Some {| next_port := 55002;
             igp_neighbours := {[ "A" := {[ "B" ]}; "B" := {[ "A" ]} ]};
             igp_wg_ports := {[ "A,B" := 55001; "B,A" := 55001 ]} |}).
Proof. split_and!; vm_compute; reflexivity. Qed.

(** C1 (amended): for two distinct routers [a] and [b] of an inventory whose
    identifiers hold no comma, a run that reaches its end keeps the two
    entries of the pair as they were when both keys were in the table it
    read, and otherwise stores one value of the counter, taken during this
    run, under both keys; the counter advances by one for every pair that
    lacked a key, and only for those. *)
Theorem C1_pair_kept_iff_both_keys hosts outfile out a b :
  main hosts outfile = (Returned tt, Some out) →
  NoDup (routers hosts) → Forall comma_free (routers hosts) →
  a ∈ routers hosts → b ∈ routers hosts → a ≠ b →
  let prior := _read_previous_settings outfile in
  (both_present (igp_wg_ports prior) (a, b) →
     igp_wg_ports out !! key a b = igp_wg_ports prior !! key a b ∧
     igp_wg_ports out !! key b a = igp_wg_ports prior !! key b a) ∧
  (¬ both_present (igp_wg_ports prior) (a, b) →
     ∃ v, next_port prior ≤ v < next_port out ∧
       igp_wg_ports out !! key a b = Some v ∧
       igp_wg_ports out !! key b a = Some v) ∧
  next_port out =
    next_port prior +
    Z.of_nat (length (missing_pairs (igp_wg_ports prior)
                        (combinations2 (routers hosts)))).
Proof.
  intros (m1 & m2 & Hrun & Hnp & Hports & ->)%main_ports Hnodup Hfree Ha Hb Hne.
  simpl. rewrite <-Hnp, <-Hports.
  pose proof (NoDup_pair_keys _ Hnodup Hfree) as Hkeys.
  split_and!; [| |by apply allocate_loop_count].
  - destruct (combinations2_complete _ _ _ Ha Hb Hne) as [Hp|Hp];
      destruct (allocate_loop_pair _ _ _ _ _ Hrun Hkeys Hp) as [Hkeep _].
    + done.
    + rewrite both_present_swap. intros Hboth. by destruct (Hkeep Hboth).
  - destruct (combinations2_complete _ _ _ Ha Hb Hne) as [Hp|Hp];
      destruct (allocate_loop_pair _ _ _ _ _ Hrun Hkeys Hp) as [_ Hnew].
    + done.
    + rewrite both_present_swap. intros Hmiss.
      destruct (Hnew Hmiss) as (v & Hv & Hba & Hab). by exists v.
Qed.

Lemma C1_pair_kept_iff_both_keys_witness :
  let prior := _read_previous_settings (Some one_sided) in
  let out := {| next_port := 55002;
                igp_neighbours := {[ "A" := {[ "B" ]}; "B" := {[ "A" ]} ]};
                igp_wg_ports := {[ "A,B" := 55001; "B,A" := 55001 ]} |} in
  (both_present (igp_wg_ports prior) ("A", "B") →
     igp_wg_ports out !! key "A" "B" = igp_wg_ports prior !! key "A" "B" ∧
     igp_wg_ports out !! key "B" "A" = igp_wg_ports prior !! key "B" "A") ∧
  (¬ both_present (igp_wg_ports prior) ("A", "B") →
     ∃ v, next_port prior ≤ v < next_port out ∧
       igp_wg_ports out !! key "A" "B" = Some v ∧
       igp_wg_ports out !! key "B" "A" = Some v) ∧
  next_port out =
    next_port prior +
    Z.of_nat (length (missing_pairs (igp_wg_ports prior)
                        (combinations2 (routers two_mesh)))).
Proof.
  apply (C1_pair_kept_iff_both_keys two_mesh (Some one_sided) _ "A" "B").
  - vm_compute. reflexivity.
  - by_evaluation.
  - by_evaluation.
  - by_evaluation.
  - by_evaluation.
  - by_evaluation.
Defined.

(** C4: when the counter read is above every port of the table read, the
    counter written is above every port of the table written. *)
Theorem C4_counter_stays_above_ports hosts outfile out :
  main hosts outfile = (Returned tt, Some out) →
  counter_above_ports (_read_previous_settings outfile) →
  counter_above_ports out.
Proof.
  intros (m1 & m2 & Hrun & Hnp & Hports & ->)%main_ports Hinv.
  apply (allocate_loop_counter _ _ _ Hrun).
  unfold counter_above_ports. rewrite Hnp, Hports. apply Hinv.
Qed.

Lemma C4_counter_stays_above_ports_witness : counter_above_ports two_mesh_out.
Proof.
  apply (C4_counter_stays_above_ports two_mesh None two_mesh_out).
  - vm_compute. reflexivity.
  - intros k v. simpl. by rewrite lookup_empty.
Defined.
(** C5, as stated, fails: from [stale_key] the run writes a table that has
    the key "X,Y" and lacks the key "Y,X". *)
Lemma C5_lone_key_stays_lone :
  ∃ out, main two_mesh (Some stale_key) = (Returned tt, Some out) ∧
    igp_wg_ports out !! key "X" "Y" = Some 55000 ∧
    igp_wg_ports out !! key "Y" "X" = None.
Proof. eexists. split_and!; vm_compute; reflexivity. Qed.

(** C5 (amended): when the identifiers of the routers hold no comma, and
    the two orderings of a pair differ in the table read only for distinct
    routers of the inventory that lack one of their keys (so also when the
    table read is symmetric, as the empty table is), the table written is
    symmetric: the two keys of every pair are both absent or both present
    with one value; and every two distinct routers of the inventory have a
    port under both keys. *)
Theorem C5_table_written_is_symmetric hosts outfile out :
  main hosts outfile = (Returned tt, Some out) →
  Forall comma_free (routers hosts) →
  (∀ a b,
     igp_wg_ports (_read_previous_settings outfile) !! key a b ≠
     igp_wg_ports (_read_previous_settings outfile) !! key b a →
     a ∈ routers hosts ∧ b ∈ routers hosts ∧ a ≠ b ∧
     ¬ both_present (igp_wg_ports (_read_previous_settings outfile)) (a, b)) →
  symmetric (igp_wg_ports out) ∧
  ∀ a b, a ∈ routers hosts → b ∈ routers hosts → a ≠ b →
    ∃ v, igp_wg_ports out !! key a b = Some v ∧
         igp_wg_ports out !! key b a = Some v.
Proof.
  intros (m1 & m2 & Hrun & Hnp & Hports & ->)%main_ports Hfree Hsym.
  rewrite Forall_forall in Hfree. rewrite <-Hports in Hsym.
  assert (symmetric (igp_wg_ports (data m2))) as Hsym2.
  { apply (allocate_loop_symmetric _ _ _ Hrun).
    - intros a b [Ha Hb]%elem_of_combinations2. auto.
    - intros a b Hne. destruct (Hsym a b Hne) as (Ha & Hb & Hab & Hlack).
      split; [|done]. by apply combinations2_complete. }
  split; [done|]. intros a b Ha Hb Hne.
  assert (both_present (igp_wg_ports (data m2)) (a, b)) as [[v Hv] _].
  { destruct (combinations2_complete _ _ _ Ha Hb Hne) as [Hp|Hp].
    - by apply (allocate_loop_present _ _ _ _ Hrun Hp).
    - apply both_present_swap. by apply (allocate_loop_present _ _ _ _ Hrun Hp). }
  simpl in Hv. exists v. split; [done|]. by rewrite <-Hsym2.
Qed.

Lemma C5_table_written_is_symmetric_witness :
  symmetric (igp_wg_ports two_mesh_out) ∧
  ∀ a b, a ∈ routers two_mesh → b ∈ routers two_mesh → a ≠ b →
    ∃ v, igp_wg_ports two_mesh_out !! key a b = Some v ∧
         igp_wg_ports two_mesh_out !! key b a = Some v.
Proof.
  apply (C5_table_written_is_symmetric two_mesh None two_mesh_out).
  - vm_compute. reflexivity.
  - by_evaluation.
  - intros a b. simpl. by rewrite !lookup_empty.
Defined.

(** C6, as stated, fails: [one_sided] has the key "A,B" with port 55000, and
    the run writes port 55001 under that key. *)
Lemma C6_one_sided_entry_is_overwritten :
  igp_wg_ports one_sided !! "A,B" = Some 55000 ∧
  ∃ out, main two_mesh (Some one_sided) = (Returned tt, Some out) ∧
    igp_wg_ports out !! "A,B" = Some 55001.
Proof. split; [|eexists; split]; vm_compute; reflexivity. Qed.

(** C6 (amended): every key of the table read is a key of the table
    written; it keeps its port when every two distinct routers of the
    inventory that form this key, in either order, had both their keys in
    the table read. *)
Theorem C6_prior_entries_kept hosts outfile out k v :
  main hosts outfile = (Returned tt, Some out) →
  igp_wg_ports (_read_previous_settings outfile) !! k = Some v →
  is_Some (igp_wg_ports out !! k) ∧
  ((∀ a b, a ∈ routers hosts → b ∈ routers hosts → a ≠ b →
      k = key a b ∨ k = key b a →
      both_present (igp_wg_ports (_read_previous_settings outfile)) (a, b)) →
   igp_wg_ports out !! k = Some v).
Proof.
  intros (m1 & m2 & Hrun & Hnp & Hports & ->)%main_ports Hv.
  rewrite <-Hports in Hv |- *. split.
  - apply allocate_loop_mono in Hrun as [_ Hkeys]. apply Hkeys. eauto.
  - intros Hcomplete. apply (allocate_loop_keeps _ _ _ _ _ Hrun Hv).
    intros a b [Ha Hb]%elem_of_combinations2 Hk.
    destruct (decide (a = b)) as [->|Hne]; [|by apply Hcomplete].
    assert (k = key b b) as -> by (by destruct Hk).
    split; simpl; eauto.
Qed.

Lemma C6_prior_entries_kept_witness :
  is_Some (igp_wg_ports two_mesh_out !! "A,B") ∧
  igp_wg_ports two_mesh_out !! "A,B" = Some 55000.
Proof.
  destruct (C6_prior_entries_kept two_mesh (Some two_mesh_out) two_mesh_out
              "A,B" 55000) as [Hkey Hport].
  - vm_compute. reflexivity.
  - vm_compute. reflexivity.
  - split; [exact Hkey|]. apply Hport. intros a b Ha Hb Hne _.
    change (routers two_mesh) with ["A"; "B"] in Ha, Hb.
    rewrite !elem_of_cons, elem_of_nil in Ha, Hb.
    destruct Ha as [->|[->|[]]], Hb as [->|[->|[]]]; try done; by_evaluation.
Defined.
End port_claims.

(** ** Validation *)

Section validation_claims.
Implicit Types (hosts : inventory) (outfile : option settings) (m : mem).
Implicit Types (l : list (string * serverdata)) (s : string) (sd : serverdata).

Lemma misplaced_iff mesh s sd : misplaced mesh s sd ↔ ¬ well_placed mesh s sd.
Proof.
  unfold misplaced, well_placed.
  destruct (decide (s ∈ mesh)), (decide (igp_upstreams sd = [])); tauto.
Qed.

Lemma not_misplaced_iff mesh s sd : ¬ misplaced mesh s sd ↔ well_placed mesh s sd.
Proof.
  rewrite misplaced_iff. destruct (decide (well_placed mesh s sd)); tauto.
Qed.

Lemma Forall_not_misplaced mesh l :
  Forall (λ p, ¬ misplaced mesh p.1 p.2) l ↔
  Forall (λ p, well_placed mesh p.1 p.2) l.
Proof. apply Forall_iff. intros [s sd]. apply not_misplaced_iff. Qed.

(** The first misplaced router of a list that has one. *)
Lemma first_misplaced mesh l s sd :
  (s, sd) ∈ l → misplaced mesh s sd →
  ∃ l1 s' sd' l2, l = l1 ++ (s', sd') :: l2 ∧
    Forall (λ p, ¬ misplaced mesh p.1 p.2) l1 ∧ misplaced mesh s' sd'.
Proof.
  induction l as [|[s0 sd0] l IH]; [by intros ?%elem_of_nil|].
  intros Hin Hbad.
  destruct (decide (well_placed mesh s0 sd0)) as [Hok|Hbad0].
  - apply elem_of_cons in Hin as [[= -> ->]|Hin].
    { by apply misplaced_iff in Hbad. }
    destruct (IH Hin Hbad) as (l1 & s' & sd' & l2 & -> & Hl1 & Hbad').
    exists ((s0, sd0) :: l1), s', sd', l2. split_and!; [done | | done].
    constructor; [by apply not_misplaced_iff | done].
  - exists [], s0, sd0, l. split_and!; [done | constructor | by apply misplaced_iff].
Qed.

Lemma derive_returns hosts outfile :
  (∃ m, derive hosts outfile = (Returned tt, m)) ↔
  Forall (λ p, well_placed (meshrouters hosts) p.1 p.2) (dn42routers hosts) ∧
  NoDup (shortnames (dn42routers hosts)).
Proof.
  unfold derive, populate_neighbours. rewrite visit_all_returns. simpl.
  by rewrite dom_empty_L, unique_names_empty.
Qed.

Lemma derive_misplaced hosts outfile s :
  (∃ m, derive hosts outfile = (Raised (MustDefineUpstreamsOrMesh s), m)) ↔
  ∃ l1 sd l2, dn42routers hosts = l1 ++ (s, sd) :: l2 ∧
    Forall (λ p, ¬ misplaced (meshrouters hosts) p.1 p.2) l1 ∧
    NoDup (shortnames (l1 ++ [(s, sd)])) ∧
    misplaced (meshrouters hosts) s sd.
Proof.
  unfold derive, populate_neighbours. rewrite visit_all_misplaced. simpl.
  rewrite dom_empty_L.
  do 3 (apply exist_proper; intros ?).
  by rewrite unique_names_empty, Forall_not_misplaced, misplaced_iff.
Qed.

(** C7, as stated, fails: [misplaced_duplicate] has a misplaced router, and
    its derivation fails with the error of the duplicate shortname. *)
Lemma C7_duplicate_reported_first :
  ("B", Serverdata "a" []) ∈ dn42routers misplaced_duplicate ∧
  misplaced (meshrouters misplaced_duplicate) "B" (Serverdata "a" []) ∧
  (derive misplaced_duplicate None).1 = Raised (DuplicateShortname "a" "A" "B").
Proof.
  split_and!.
  - by_evaluation.
  - right. split; [by_evaluation | done].
  - vm_compute. reflexivity.
Qed.

(** C7 (amended): derivation fails with the constraint error for [s] exactly
    when [s] is misplaced, no router before it is, and the shortnames of the
    routers up to [s] are pairwise distinct.  When the shortnames of all
    routers are pairwise distinct, derivation fails with the constraint
    error exactly when some router is misplaced, and returns exactly when
    none is. *)
Theorem C7_constraint_error_iff_first_failure hosts outfile :
  (∀ s, (∃ m, derive hosts outfile = (Raised (MustDefineUpstreamsOrMesh s), m)) ↔
        ∃ l1 sd l2, dn42routers hosts = l1 ++ (s, sd) :: l2 ∧
          Forall (λ p, ¬ misplaced (meshrouters hosts) p.1 p.2) l1 ∧
          NoDup (shortnames (l1 ++ [(s, sd)])) ∧
          misplaced (meshrouters hosts) s sd) ∧
  (NoDup (shortnames (dn42routers hosts)) →
     ((∃ s m, derive hosts outfile = (Raised (MustDefineUpstreamsOrMesh s), m)) ↔
      (∃ s sd, (s, sd) ∈ dn42routers hosts ∧ misplaced (meshrouters hosts) s sd)) ∧
     ((∃ m, derive hosts outfile = (Returned tt, m)) ↔
      Forall (λ p, ¬ misplaced (meshrouters hosts) p.1 p.2) (dn42routers hosts))).
Proof.
  split; [apply derive_misplaced|]. intros Hnodup. split.
  - split.
    + intros (s & Hraised). apply derive_misplaced in Hraised
        as (l1 & sd & l2 & Heq & _ & _ & Hbad).
      exists s, sd. split; [|done]. rewrite Heq, elem_of_app, elem_of_cons. auto.
    + intros (s & sd & Hin & Hbad).
      destruct (first_misplaced _ _ _ _ Hin Hbad)
        as (l1 & s' & sd' & l2 & Heq & Hl1 & Hbad').
      exists s'. apply derive_misplaced. exists l1, sd', l2.
      split_and!; [done.. | | done].
      rewrite Heq in Hnodup. unfold shortnames in *.
      rewrite (cons_middle _ l1 l2), (assoc_L (++)), fmap_app in Hnodup.
      by apply NoDup_app in Hnodup as [? _].
  - rewrite derive_returns, Forall_not_misplaced. tauto.
Qed.

Lemma C7_constraint_error_iff_first_failure_witness :
  ((∃ s m, derive mesh_with_upstream None =
             (Raised (MustDefineUpstreamsOrMesh s), m)) ↔
   (∃ s sd, (s, sd) ∈ dn42routers mesh_with_upstream ∧
            misplaced (meshrouters mesh_with_upstream) s sd)) ∧
  ((∃ m, derive mesh_with_upstream None = (Returned tt, m)) ↔
   Forall (λ p, ¬ misplaced (meshrouters mesh_with_upstream) p.1 p.2)
     (dn42routers mesh_with_upstream)).
Proof.
  apply (C7_constraint_error_iff_first_failure mesh_with_upstream None).
  by_evaluation.
Defined.

(** C8, as stated, fails.  In [duplicate_after_misplaced] two routers share
    a shortname and the run fails with the constraint error of the first.
    In [duplicate_in_mesh] the run fails with the error of the duplicate
    shortname, and at the [raise] the table of neighbours in memory has the
    entry of "A" already, with "B" in it. *)
Lemma C8_duplicate_check_is_interleaved :
  main duplicate_after_misplaced None =
    (Raised (MustDefineUpstreamsOrMesh "A"), None) ∧
  ∃ m, main_body duplicate_in_mesh (initial None) =
         (Raised (DuplicateShortname "a" "A" "B"), m) ∧
       igp_neighbours (data m) = {[ "A" := {[ "B" ]}; "B" := ∅ ]}.
Proof.
  split; [vm_compute; reflexivity|].
  eexists. split; vm_compute; reflexivity.
Qed.

(** C8 (amended): when two entries of the inventory have one shortname the
    run fails, and the file is as before; the error is that of the duplicate
    shortname when every router is well placed.  Whenever a run fails, the
    file is as before, and the counter and the port table in memory are
    those read: no port was allocated. *)
Theorem C8_failed_run_leaves_file hosts outfile :
  (∀ (i j : nat) r1 r2, i ≠ j →
     dn42routers hosts !! i = Some r1 → dn42routers hosts !! j = Some r2 →
     shortname r1.2 = shortname r2.2 →
     ∃ e, main hosts outfile = (Raised e, outfile) ∧
       (Forall (λ p, ¬ misplaced (meshrouters hosts) p.1 p.2) (dn42routers hosts) →
        ∃ n first s, e = DuplicateShortname n first s)) ∧
  (∀ e o, main hosts outfile = (Raised e, o) →
     o = outfile ∧
     ∃ m, main_body hosts (initial outfile) = (Raised e, m) ∧
       next_port (data m) = next_port (_read_previous_settings outfile) ∧
       igp_wg_ports (data m) = igp_wg_ports (_read_previous_settings outfile)).
Proof.
  split.
  - intros i j r1 r2 Hij H1 H2 Hsame.
    assert (¬ NoDup (shortnames (dn42routers hosts))) as Hdup.
    { intros Hnodup. apply Hij.
      apply (NoDup_lookup _ i j (shortname r1.2) Hnodup); unfold shortnames;
        rewrite list_lookup_fmap; [by rewrite H1 | by rewrite H2, Hsame]. }
    destruct (derive hosts outfile) as [[[]|e] m] eqn:Hderive.
    { exfalso. apply Hdup. eapply derive_returns. eauto. }
    exists e. split.
    + apply main_raised. eauto.
    + intros Hok. destruct e as [n first s|s|k]; [eauto | |].
      * exfalso. assert (∃ m', derive hosts outfile =
                           (Raised (MustDefineUpstreamsOrMesh s), m')) as Hraised by eauto.
        apply derive_misplaced in Hraised as (l1 & sd & l2 & Heq & _ & _ & Hbad).
        rewrite Forall_forall in Hok. apply (Hok (s, sd)); [|done].
        rewrite Heq, elem_of_app, elem_of_cons. auto.
      * exfalso. by eapply visit_all_no_KeyError.
  - intros e o (-> & m & Hderive)%main_raised. split; [done|].
    exists m. rewrite main_body_derive, Hderive. split; [done|].
    by apply derive_same_ports in Hderive as [? ?].
Qed.

Lemma C8_failed_run_leaves_file_witness :
  ∃ e, main duplicate_in_mesh (Some two_mesh_out) = (Raised e, Some two_mesh_out) ∧
    (Forall (λ p, ¬ misplaced (meshrouters duplicate_in_mesh) p.1 p.2)
       (dn42routers duplicate_in_mesh) →
     ∃ n first s, e = DuplicateShortname n first s).
Proof.
  destruct (C8_failed_run_leaves_file duplicate_in_mesh (Some two_mesh_out))
    as [Hdup _].
  apply (Hdup 0%nat 1%nat ("A", Serverdata "a" []) ("B", Serverdata "a" []));
    [by_evaluation | reflexivity | reflexivity | reflexivity].
Defined.
End validation_claims.

(** ** The table of neighbours *)

Section neighbour_claims.
Implicit Types (hosts : inventory) (outfile : option settings) (out : settings).
Implicit Types (m : mem) (a b k x u : string).

Lemma elem_of_upstreams hosts a x :
  NoDup (routers hosts) →
  x ∈ upstreams hosts a ↔ ∃ sd, (a, sd) ∈ dn42routers hosts ∧ x ∈ igp_upstreams sd.
Proof.
  intros Hnodup. unfold upstreams. split.
  - destruct (list_to_map _ !! a) as [sd|] eqn:Hsd; [|by intros ?%elem_of_nil].
    apply elem_of_list_to_map in Hsd; [|done]. eauto.
  - intros (sd & Hin & Hx). apply elem_of_list_to_map in Hin; [|done].
    by rewrite Hin.
Qed.

(** The table of neighbours of the output is the one derivation built. *)
Lemma main_neighbours hosts outfile out :
  main hosts outfile = (Returned tt, Some out) →
  ∃ m1, derive hosts outfile = (Returned tt, m1) ∧
    igp_neighbours out = igp_neighbours (data m1).
Proof.
  intros (m1 & m2 & Hderive & Hports & ->)%main_returned.
  exists m1. split; [done|].
  destruct (allocate_loop_returns (combinations2 (routers hosts)) m1)
    as (m2' & Hrun & Hsame & _).
  unfold populate_ports in Hports. fold (routers hosts) in Hports.
  rewrite Hports in Hrun. by injection Hrun as <-.
Qed.

(** The members and the keys of the table derivation builds. *)
Lemma derive_adjacency hosts outfile m1 :
  derive hosts outfile = (Returned tt, m1) →
  NoDup (routers hosts) →
  dom (igp_neighbours (data m1)) =
    list_to_set (routers hosts) ∪ upstreams_of (dn42routers hosts) ∧
  ∀ k x, x ∈ neighbours_of (igp_neighbours (data m1)) k ↔
    (k ∈ routers hosts ∧ k ∈ meshrouters hosts ∧ x ∈ meshrouters hosts ∧ x ≠ k) ∨
    x ∈ upstreams hosts k ∨ k ∈ upstreams hosts x.
Proof.
  intros Hderive Hnodup.
  destruct (visit_all_adjacency _ _ _ _ Hderive Hnodup) as [Hdom Hin].
  { intros k _ _. simpl. unfold neighbours_of. rewrite lookup_empty.
    apply not_elem_of_empty. }
  split.
  - rewrite Hdom. simpl. by rewrite dom_empty_L, (left_id_L ∅ (∪)).
  - intros k x. rewrite Hin, !elem_of_upstreams by done. simpl.
    unfold neighbours_of at 1. rewrite lookup_empty. simpl.
    rewrite elem_of_empty. unfold routers. tauto.
Qed.

(** C2: in the table of neighbours a run writes, for a router [a] of the
    inventory and any other identifier [b], [b] is a neighbour of [a]
    exactly when both are in the mesh, or [a] names [b] as an upstream, or
    [b] names [a] as one.  So two routers of the mesh are neighbours of each
    other, a mesh router is not its own neighbour, and an upstream
    declaration makes each of the two a neighbour of the other. *)
Theorem C2_adjacency_of_validated_inventory hosts outfile out :
  main hosts outfile = (Returned tt, Some out) →
  NoDup (routers hosts) →
  (∀ a b, a ∈ routers hosts → a ≠ b →
     b ∈ neighbours_of (igp_neighbours out) a ↔
     (a ∈ meshrouters hosts ∧ b ∈ meshrouters hosts) ∨
     b ∈ upstreams hosts a ∨ a ∈ upstreams hosts b) ∧
  (∀ a b, a ∈ routers hosts → b ∈ routers hosts →
     a ∈ meshrouters hosts → b ∈ meshrouters hosts → a ≠ b →
     b ∈ neighbours_of (igp_neighbours out) a ∧
     a ∈ neighbours_of (igp_neighbours out) b) ∧
  (∀ a, a ∈ routers hosts → a ∈ meshrouters hosts →
     a ∉ neighbours_of (igp_neighbours out) a) ∧
  (∀ a b, b ∈ upstreams hosts a →
     b ∈ neighbours_of (igp_neighbours out) a ∧
     a ∈ neighbours_of (igp_neighbours out) b).
Proof.
  intros (m1 & Hderive & ->)%main_neighbours Hnodup.
  destruct (derive_adjacency _ _ _ Hderive Hnodup) as [_ Hin].
  assert (Forall (λ p, well_placed (meshrouters hosts) p.1 p.2) (dn42routers hosts))
    as Hok.
  { eapply derive_returns. eauto. }
  rewrite Forall_forall in Hok.
  split_and!.
  - intros a b Ha Hne. rewrite Hin. intuition congruence.
  - intros a b Ha Hb Hma Hmb Hne. rewrite !Hin. split; left; auto.
  - intros a Ha Hmesh. rewrite Hin.
    assert (upstreams hosts a = []) as ->.
    { unfold upstreams.
      destruct (list_to_map _ !! a) as [sd|] eqn:Hsd; [|done].
      apply elem_of_list_to_map in Hsd; [|done].
      destruct (Hok _ Hsd) as [[_ ?]|[? _]]; done. }
    rewrite elem_of_nil. tauto.
  - intros a b Hb. rewrite !Hin. auto.
Qed.

Lemma main_mesh_and_leaf :
  main mesh_and_leaf None = (Returned tt, Some mesh_and_leaf_out).
Proof. vm_compute. reflexivity. Qed.

Lemma C2_adjacency_of_validated_inventory_witness :
  (∀ a b, a ∈ routers mesh_and_leaf → a ≠ b →
     b ∈ neighbours_of (igp_neighbours mesh_and_leaf_out) a ↔
     (a ∈ meshrouters mesh_and_leaf ∧ b ∈ meshrouters mesh_and_leaf) ∨
     b ∈ upstreams mesh_and_leaf a ∨ a ∈ upstreams mesh_and_leaf b) ∧
  (∀ a b, a ∈ routers mesh_and_leaf → b ∈ routers mesh_and_leaf →
     a ∈ meshrouters mesh_and_leaf → b ∈ meshrouters mesh_and_leaf → a ≠ b →
     b ∈ neighbours_of (igp_neighbours mesh_and_leaf_out) a ∧
     a ∈ neighbours_of (igp_neighbours mesh_and_leaf_out) b) ∧
  (∀ a, a ∈ routers mesh_and_leaf → a ∈ meshrouters mesh_and_leaf →
     a ∉ neighbours_of (igp_neighbours mesh_and_leaf_out) a) ∧
  (∀ a b, b ∈ upstreams mesh_and_leaf a →
     b ∈ neighbours_of (igp_neighbours mesh_and_leaf_out) a ∧
     a ∈ neighbours_of (igp_neighbours mesh_and_leaf_out) b).
Proof.
  apply (C2_adjacency_of_validated_inventory mesh_and_leaf None mesh_and_leaf_out).
  - vm_compute. reflexivity.
  - by_evaluation.
Defined.
(** C10: an upstream [u] of a router [a] that is not a router of the
    inventory passes validation.  When every router is well placed and the
    shortnames are pairwise distinct, the run reaches its end; [u] is a
    neighbour of [a]; the table has an entry for [u], with [a] in it; no
    pair of the second loop has [u] in it, and every key whose port differs
    from the one read is the key of two routers of the inventory. *)
Theorem C10_unknown_upstream_accepted hosts outfile a u :
  NoDup (routers hosts) →
  Forall (λ p, ¬ misplaced (meshrouters hosts) p.1 p.2) (dn42routers hosts) →
  NoDup (shortnames (dn42routers hosts)) →
  u ∈ upstreams hosts a → u ∉ routers hosts →
  ∃ out, main hosts outfile = (Returned tt, Some out) ∧
    u ∈ neighbours_of (igp_neighbours out) a ∧
    (∃ X, igp_neighbours out !! u = Some X ∧ a ∈ X) ∧
    (∀ x y, (x, y) ∈ combinations2 (routers hosts) → x ≠ u ∧ y ≠ u) ∧
    (∀ k, igp_wg_ports out !! k ≠
          igp_wg_ports (_read_previous_settings outfile) !! k →
       ∃ x y, x ∈ routers hosts ∧ y ∈ routers hosts ∧ x ≠ u ∧ y ≠ u ∧
              k = key x y).
Proof.
  intros Hnodup Hok Hnames Hu Hnew.
  destruct (proj2 (derive_returns hosts outfile)) as [m1 Hderive].
  { by rewrite <-Forall_not_misplaced. }
  destruct (allocate_loop_returns (combinations2 (routers hosts)) m1)
    as (m2 & Hrun & Hsame & _).
  assert (main hosts outfile = (Returned tt, Some (data m2))) as Hmain.
  { apply main_returned. by exists m1, m2. }
  exists (data m2). split; [done|].
  destruct (derive_adjacency _ _ _ Hderive Hnodup) as [_ Hin].
  assert (a ∈ neighbours_of (igp_neighbours (data m2)) u) as Hau.
  { rewrite Hsame, Hin. auto. }
  split_and!.
  - rewrite Hsame, Hin. auto.
  - unfold neighbours_of in Hau.
    destruct (igp_neighbours (data m2) !! u) as [X|]; [by exists X|].
    by apply not_elem_of_empty in Hau.
  - intros x y [Hx Hy]%elem_of_combinations2. split; by intros ->.
  - intros k Hk. apply main_ports in Hmain as (m1' & m2' & Hrun' & _ & Hports & Hout).
    rewrite Hout, <-Hports in Hk.
    destruct (decide (k ∈ pair_keys (combinations2 (routers hosts)))) as [Hin'|Hout'].
    + apply elem_of_pair_keys in Hin' as (x & y & [Hx Hy]%elem_of_combinations2 & Hxy).
      assert (x ≠ u) by (by intros ->). assert (y ≠ u) by (by intros ->).
      destruct Hxy as [-> | ->]; [by exists x, y | by exists y, x].
    + by rewrite (allocate_loop_frame _ _ _ _ Hrun' Hout') in Hk.
Qed.

Lemma C10_unknown_upstream_accepted_witness :
  ∃ out, main mesh_and_leaf None = (Returned tt, Some out) ∧
    "U" ∈ neighbours_of (igp_neighbours out) "L" ∧
    (∃ X, igp_neighbours out !! "U" = Some X ∧ "L" ∈ X) ∧
    (∀ x y, (x, y) ∈ combinations2 (routers mesh_and_leaf) → x ≠ "U" ∧ y ≠ "U") ∧
    (∀ k, igp_wg_ports out !! k ≠ igp_wg_ports (_read_previous_settings None) !! k →
       ∃ x y, x ∈ routers mesh_and_leaf ∧ y ∈ routers mesh_and_leaf ∧
              x ≠ "U" ∧ y ≠ "U" ∧ k = key x y).
Proof.
  apply (C10_unknown_upstream_accepted mesh_and_leaf None "L" "U").
  - by_evaluation.
  - by_evaluation.
  - by_evaluation.
  - by_evaluation.
  - by_evaluation.
Defined.
End neighbour_claims.

(** ** Whole runs *)

Section run_claims.
Implicit Types (hosts : inventory) (outfile : option settings) (out : settings).

(** C3: a second run on the same inventory, reading what the first run
    wrote, reaches its end and writes the same document: the same counter,
    the same table of neighbours, the same port table. *)
Theorem C3_second_run_writes_the_same hosts outfile out :
  main hosts outfile = (Returned tt, Some out) →
  main hosts (Some out) = (Returned tt, Some out).
Proof.
  intros (m1 & m2 & Hderive & Hports & ->)%main_returned.
  unfold populate_ports in Hports. fold (routers hosts) in Hports.
  destruct (allocate_loop_returns (combinations2 (routers hosts)) m1)
    as (m2' & Hrun & Hsame & _).
  rewrite Hports in Hrun. injection Hrun as <-.
  apply main_returned. exists (with_ports (data m2) m1), (with_ports (data m2) m1).
  split_and!.
  - unfold derive, populate_neighbours in *.
    change (cleared (Some (data m2))) with (with_ports (data m2) (cleared outfile)).
    by rewrite visit_all_with_ports, Hderive.
  - unfold populate_ports. fold (routers hosts).
    apply allocate_loop_fixpoint. intros p Hp.
    by apply (allocate_loop_present _ _ _ _ Hports).
  - unfold with_ports. simpl. rewrite <-Hsame. by destruct (data m2).
Qed.

Lemma C3_second_run_writes_the_same_witness :
  main mesh_and_leaf (Some mesh_and_leaf_out) = (Returned tt, Some mesh_and_leaf_out).
Proof.
  apply (C3_second_run_writes_the_same mesh_and_leaf None mesh_and_leaf_out).
  vm_compute. reflexivity.
Defined.

(** C9: for three distinct routers [X], [Y], [Z] (identifiers without a
    comma, pairwise distinct shortnames) that make up the mesh, and no
    file, the run writes the counter 55003, the table of neighbours
    {X:{Y,Z}, Y:{X,Z}, Z:{X,Y}}, and a port table of six keys: port 55000
    for the pair X,Y, port 55001 for the pair X,Z, port 55002 for the pair
    Y,Z, each under both orderings. *)
Theorem C9_three_mesh_routers_from_scratch X Y Z nx ny nz mesh :
  NoDup [X; Y; Z] → Forall comma_free [X; Y; Z] → NoDup [nx; ny; nz] →
  (∀ k, k ∈ mesh ↔ k ∈ [X; Y; Z]) →
  main (three_mesh X Y Z nx ny nz mesh) None =
    (Returned tt,
     Some {| next_port := 55003;
             igp_neighbours :=
               {[ X := {[ Y; Z ]}; Y := {[ X; Z ]}; Z := {[ X; Y ]} ]};
             igp_wg_ports :=
               {[ key Z Y := 55002; key Y Z := 55002;
                  key Z X := 55001; key X Z := 55001;
                  key Y X := 55000; key X Y := 55000 ]} |}) ∧
  NoDup [key X Y; key Y X; key X Z; key Z X; key Y Z; key Z Y].
Proof.
  intros Hnodup Hfree Hnames Hmesh.
  set (hosts := three_mesh X Y Z nx ny nz mesh).
  pose proof (NoDup_pair_keys _ Hnodup Hfree) as Hkeys.
  change (pair_keys (combinations2 [X; Y; Z]))
    with [key X Y; key Y X; key X Z; key Z X; key Y Z; key Z Y] in Hkeys.
  split; [|done].
  (* the first loop *)
  destruct (proj2 (derive_returns hosts None)) as [m1 Hderive].
  { split; [|done].
    assert (∀ s n, s ∈ [X; Y; Z] → well_placed mesh s (Serverdata n [])) as Hwp.
    { intros s n Hs. left. split; [by apply Hmesh | done]. }
    repeat (apply Forall_cons; split; [apply Hwp; rewrite !elem_of_cons; tauto|]).
    constructor. }
  destruct (derive_same_ports _ _ _ _ Hderive) as [Hnp Hports].
  simpl in Hnp, Hports.
  destruct (derive_adjacency _ _ _ Hderive Hnodup) as [Hdom Hin].
  (* the second loop *)
  repeat (apply NoDup_cons in Hkeys as [? Hkeys]).
  repeat match goal with
         | H : _ ∉ _ :: _ |- _ => apply not_elem_of_cons in H as [? H]
         end.
  assert (populate_ports hosts m1 =
            (Returned tt, fresh_pair Y Z (fresh_pair X Z (fresh_pair X Y m1))))
    as Hrun.
  { unfold populate_ports.
    change (combinations2 (dn42routers hosts).*1) with [(X, Y); (X, Z); (Y, Z)].
    rewrite (for_each_returned _ _ _ _ (fresh_pair X Y m1)).
    2:{ apply allocate_missing. intros [[v Hv] _]. simpl in Hv.
        by rewrite Hports, lookup_empty in Hv. }
    rewrite (for_each_returned _ _ _ _ (fresh_pair X Z (fresh_pair X Y m1))).
    2:{ apply allocate_missing. intros [[v Hv] _]. cbn [fst snd] in Hv. revert Hv.
        rewrite fresh_pair_lookup, decide_False by (intros [?|?]; congruence).
        by rewrite Hports, lookup_empty. }
    rewrite (for_each_returned _ _ _ _
               (fresh_pair Y Z (fresh_pair X Z (fresh_pair X Y m1)))).
    2:{ apply allocate_missing. intros [[v Hv] _]. cbn [fst snd] in Hv. revert Hv.
        rewrite !fresh_pair_lookup, !decide_False by (intros [?|?]; congruence).
        by rewrite Hports, lookup_empty. }
    done. }
  apply main_returned. eexists m1, _. split_and!; [done | done |].
  simpl. rewrite Hnp, Hports. unfold START_PORT. f_equal.
  assert (X ≠ Y ∧ X ≠ Z ∧ Y ≠ Z) as (HXY & HXZ & HYZ).
  { apply NoDup_cons in Hnodup as [HX Hnodup].
    apply NoDup_cons in Hnodup as [HY _].
    apply not_elem_of_cons in HX as [? HX]. apply not_elem_of_cons in HX as [? _].
    by apply not_elem_of_cons in HY as [? _]. }
  assert (∀ k x, ¬ ∃ sd, (k, sd) ∈ dn42routers hosts ∧ x ∈ igp_upstreams sd)
    as Hnone.
  { intros k x (sd & Hsd & Hx). simpl in Hsd.
    rewrite !elem_of_cons, elem_of_nil in Hsd.
    destruct Hsd as [[= _ ->]|[[= _ ->]|[[= _ ->]|[]]]];
      by apply elem_of_nil in Hx. }
  symmetry. apply dict_of_sets_eq.
  - rewrite Hdom. unfold upstreams_of. simpl.
    rewrite !dom_insert_L, dom_singleton_L.
    apply set_eq. intros y.
    rewrite !elem_of_union, !elem_of_singleton, !elem_of_empty. tauto.
  - intros k x. rewrite Hin. rewrite !elem_of_upstreams by done.
    pose proof (Hnone k x). pose proof (Hnone x k).
    change (routers hosts) with [X; Y; Z]. change (meshrouters hosts) with mesh.
    rewrite !Hmesh, !elem_of_cons, !elem_of_nil. unfold neighbours_of.
    destruct (decide (k = X)) as [->|HkX].
    { rewrite lookup_insert_eq. simpl.
      rewrite elem_of_union, !elem_of_singleton. intuition congruence. }
    rewrite lookup_insert_ne by done.
    destruct (decide (k = Y)) as [->|HkY].
    { rewrite lookup_insert_eq. simpl.
      rewrite elem_of_union, !elem_of_singleton. intuition congruence. }
    rewrite lookup_insert_ne by done.
    destruct (decide (k = Z)) as [->|HkZ].
    { rewrite lookup_singleton_eq. simpl.
      rewrite elem_of_union, !elem_of_singleton. intuition congruence. }
    rewrite lookup_singleton_ne by done. simpl.
    rewrite elem_of_empty. intuition congruence.
Qed.

Lemma C9_three_mesh_routers_from_scratch_witness :
  main (three_mesh "X" "Y" "Z" "x" "y" "z" ["X"; "Y"; "Z"]) None =
    (Returned tt,
     Some {| next_port := 55003;
             igp_neighbours :=
               {[ "X" := {[ "Y"; "Z" ]}; "Y" := {[ "X"; "Z" ]};
                  "Z" := {[ "X"; "Y" ]} ]};
             igp_wg_ports :=
               {[ key "Z" "Y" := 55002; key "Y" "Z" := 55002;
                  key "Z" "X" := 55001; key "X" "Z" := 55001;
                  key "Y" "X" := 55000; key "X" "Y" := 55000 ]} |}) ∧
  NoDup [key "X" "Y"; key "Y" "X"; key "X" "Z"; key "Z" "X";
         key "Y" "Z"; key "Z" "Y"].
Proof.
  apply (C9_three_mesh_routers_from_scratch "X" "Y" "Z" "x" "y" "z" ["X"; "Y"; "Z"]).
  - by_evaluation.
  - by_evaluation.
  - by_evaluation.
  - done.
Defined.
End run_claims.

(** * Further properties of the run *)

(** ** More on the loop over the pairs *)

Section allocate_more.
Implicit Types (m : mem) (a b k : string) (ps : list (string * string)).

Local Abbreviation ports m := (igp_wg_ports (data m)).
Local Abbreviation counter m := (next_port (data m)).

Lemma fresh_pair_counter_above a b m :
  counter_above_ports (data m) → counter_above_ports (data (fresh_pair a b m)).
Proof.
  intros Hinv k v. rewrite fresh_pair_lookup. simpl. case_decide.
  - intros [= <-]. lia.
  - intros Hv. apply Hinv in Hv. lia.
Qed.

(** The pairs that lack a key get the successive values of the counter, in
    the order of the loop. *)
Lemma allocate_loop_consecutive ps m m' (i : nat) a b :
  for_each ps allocate m = (Returned tt, m') →
  NoDup (pair_keys ps) →
  missing_pairs (ports m) ps !! i = Some (a, b) →
  ports m' !! key a b = Some (counter m + Z.of_nat i) ∧
  ports m' !! key b a = Some (counter m + Z.of_nat i).
Proof.
  revert m i. induction ps as [|[a0 b0] ps IH]; intros m i Hrun Hnodup Hi.
  { done. }
  apply NoDup_pair_keys_cons in Hnodup as (Hne & Hab & Hba & Hnodup).
  destruct (allocate_cases a0 b0 m) as [[Hboth Hstep]|[Hmiss Hstep]];
    rewrite (for_each_returned _ _ _ _ _ Hstep) in Hrun.
  - unfold missing_pairs in Hi. rewrite filter_cons_False in Hi by (by intros []).
    by apply IH.
  - unfold missing_pairs in Hi. rewrite filter_cons_True in Hi by done.
    fold (missing_pairs (ports m) ps) in Hi.
    destruct i as [|i]; simpl in Hi.
    + injection Hi as <- <-.
      rewrite !(allocate_loop_frame _ _ _ _ Hrun) by done.
      rewrite !fresh_pair_lookup, !decide_True by auto.
      by rewrite Z.add_0_r.
    + rewrite <-(missing_pairs_agree (ports (fresh_pair a0 b0 m))) in Hi.
      * destruct (IH _ _ Hrun Hnodup Hi) as [-> ->]. simpl.
        split; f_equal; lia.
      * intros k Hk. rewrite fresh_pair_lookup.
        rewrite decide_False; [done|]. by intros [->| ->].
Qed.

(** Above a counter that exceeds every port, the loop never gives one port
    to two pairs. *)
Lemma allocate_loop_collision_free ps m m' :
  for_each ps allocate m = (Returned tt, m') →
  counter_above_ports (data m) →
  collision_free (ports m) → collision_free (ports m').
Proof.
  revert m. induction ps as [|[a b] ps IH]; intros m Hrun Hinv Hfree.
  { by injection Hrun as <-. }
  destruct (allocate_cases a b m) as [[Hboth Hstep]|[Hmiss Hstep]];
    rewrite (for_each_returned _ _ _ _ _ Hstep) in Hrun.
  - by apply (IH m).
  - apply (IH (fresh_pair a b m)); [done | by apply fresh_pair_counter_above |].
    intros k1 k2 v. rewrite !fresh_pair_lookup.
    destruct (decide (k1 = key a b ∨ k1 = key b a)) as [H1|H1],
             (decide (k2 = key a b ∨ k2 = key b a)) as [H2|H2].
    + intros _ _. destruct H1 as [-> | ->], H2 as [-> | ->]; eauto.
    + intros [= <-] Hv. apply Hinv in Hv. lia.
    + intros Hv [= <-]. apply Hinv in Hv. lia.
    + apply Hfree.
Qed.

(** The loop either changes nothing, or advances the counter and adds a
    key. *)
Lemma allocate_loop_changes ps m m' :
  for_each ps allocate m = (Returned tt, m') →
  m' = m ∨
  (counter m < counter m' ∧
   ∃ k, ports m !! k = None ∧ is_Some (ports m' !! k)).
Proof.
  revert m. induction ps as [|[a b] ps IH]; intros m Hrun.
  { left. by injection Hrun as <-. }
  destruct (allocate_cases a b m) as [[Hboth Hstep]|[Hmiss Hstep]];
    rewrite (for_each_returned _ _ _ _ _ Hstep) in Hrun.
  - by apply IH.
  - right. apply allocate_loop_mono in Hrun as [Hc Hkeys]. simpl in Hc.
    split; [lia|].
    assert (ports m !! key a b = None ∨ ports m !! key b a = None) as [Hk|Hk].
    { unfold both_present in Hmiss. simpl in Hmiss.
      destruct (ports m !! key a b), (ports m !! key b a); auto.
      destruct Hmiss. eauto. }
    + exists (key a b). split; [done|]. apply Hkeys.
      rewrite fresh_pair_lookup, decide_True by auto. eauto.
    + exists (key b a). split; [done|]. apply Hkeys.
      rewrite fresh_pair_lookup, decide_True by auto. eauto.
Qed.

(** The keys after the loop: those before it and those of its pairs. *)
Lemma allocate_loop_dom ps m m' :
  for_each ps allocate m = (Returned tt, m') →
  dom (ports m') = dom (ports m) ∪ list_to_set (pair_keys ps).
Proof.
  revert m. induction ps as [|[a b] ps IH]; intros m Hrun.
  { injection Hrun as <-. simpl. by rewrite (right_id_L ∅ (∪)). }
  unfold pair_keys. rewrite bind_cons. fold (pair_keys ps). simpl.
  destruct (allocate_cases a b m) as [[[Hab Hba] Hstep]|[Hmiss Hstep]];
    rewrite (for_each_returned _ _ _ _ _ Hstep) in Hrun; rewrite (IH _ Hrun).
  - apply elem_of_dom in Hab, Hba. simpl in Hab, Hba.
    apply set_eq. intros k. rewrite !elem_of_union, !elem_of_singleton.
    split; [tauto|]. intros [?|[->|[->|?]]]; auto.
  - unfold fresh_pair. simpl. rewrite !dom_insert_L.
    apply set_eq. intros k. rewrite !elem_of_union, !elem_of_singleton. tauto.
Qed.
End allocate_more.

Lemma length_combinations2 {A} (l : list A) :
  (2 * length (combinations2 l) = length l * (length l - 1))%nat.
Proof.
  induction l as [|x l IH]; [done|].
  simpl. rewrite length_app, length_fmap. nia.
Qed.

Lemma length_pair_keys ps : length (pair_keys ps) = (2 * length ps)%nat.
Proof.
  unfold pair_keys. induction ps as [|p ps IH]; [done|].
  rewrite bind_cons. simpl. rewrite IH. lia.
Qed.

(** ** More on the port table *)

Section port_properties.
Implicit Types (hosts : inventory) (outfile : option settings) (out : settings).

Lemma elem_of_pair_keys_routers (l : list string) k :
  NoDup l →
  k ∈ pair_keys (combinations2 l) ↔
  ∃ a b, a ∈ l ∧ b ∈ l ∧ a ≠ b ∧ k = key a b.
Proof.
  intros Hnodup. rewrite elem_of_pair_keys. split.
  - intros (a & b & Hp & Hk).
    pose proof (combinations2_distinct _ _ _ Hnodup Hp) as Hne.
    apply elem_of_combinations2 in Hp as [Ha Hb].
    destruct Hk as [-> | ->]; [by exists a, b | by exists b, a].
  - intros (a & b & Ha & Hb & Hne & ->).
    destruct (combinations2_complete _ _ _ Ha Hb Hne); [exists a, b | exists b, a]; auto.
Qed.

Lemma missing_pairs_empty ps : missing_pairs ∅ ps = ps.
Proof.
  unfold missing_pairs. induction ps as [|p ps IH]; [done|].
  rewrite filter_cons_True, IH; [done|].
  intros [[v Hv] _]. by rewrite lookup_empty in Hv.
Qed.

(** X1: the pairs of routers that lacked a key in the table read get the
    successive values of the counter read, in the order in which the second
    loop meets them: the [i]-th of them gets the counter plus [i], under
    both keys. *)
Theorem X1_new_ports_are_consecutive hosts outfile out (i : nat) a b :
  main hosts outfile = (Returned tt, Some out) →
  NoDup (routers hosts) → Forall comma_free (routers hosts) →
  missing_pairs (igp_wg_ports (_read_previous_settings outfile))
    (combinations2 (routers hosts)) !! i = Some (a, b) →
  igp_wg_ports out !! key a b =
    Some (next_port (_read_previous_settings outfile) + Z.of_nat i) ∧
  igp_wg_ports out !! key b a =
    Some (next_port (_read_previous_settings outfile) + Z.of_nat i).
Proof.
  intros (m1 & m2 & Hrun & Hnp & Hports & ->)%main_ports Hnodup Hfree Hi.
  rewrite <-Hnp. rewrite <-Hports in Hi.
  apply (allocate_loop_consecutive _ _ _ _ _ _ Hrun); [|done].
  by apply NoDup_pair_keys.
Qed.

Lemma X1_new_ports_are_consecutive_witness :
  igp_wg_ports mesh_and_leaf_out !! key "A" "L" =
    Some (next_port (_read_previous_settings None) + Z.of_nat 1) ∧
  igp_wg_ports mesh_and_leaf_out !! key "L" "A" =
    Some (next_port (_read_previous_settings None) + Z.of_nat 1).
Proof.
  apply (X1_new_ports_are_consecutive mesh_and_leaf None mesh_and_leaf_out 1 "A" "L").
  - vm_compute. reflexivity.
  - by_evaluation.
  - by_evaluation.
  - vm_compute. reflexivity.
Defined.

(** X2: when the counter read is above every port of the table read, and no
    two pairs share a port in the table read, no two pairs share a port in
    the table written: two keys with one port are one key or the two
    orderings of one pair. *)
Theorem X2_no_port_for_two_pairs hosts outfile out :
  main hosts outfile = (Returned tt, Some out) →
  counter_above_ports (_read_previous_settings outfile) →
  collision_free (igp_wg_ports (_read_previous_settings outfile)) →
  collision_free (igp_wg_ports out).
Proof.
  intros (m1 & m2 & Hrun & Hnp & Hports & ->)%main_ports Hinv Hfree.
  apply (allocate_loop_collision_free _ _ _ Hrun).
  - unfold counter_above_ports. rewrite Hnp, Hports. apply Hinv.
  - by rewrite Hports.
Qed.

Lemma X2_no_port_for_two_pairs_witness :
  collision_free (igp_wg_ports mesh_and_leaf_out).
Proof.
  apply (X2_no_port_for_two_pairs mesh_and_leaf None mesh_and_leaf_out).
  - vm_compute. reflexivity.
  - intros k v. simpl. by rewrite lookup_empty.
  - intros k1 k2 v. simpl. by rewrite lookup_empty.
Defined.

(** X3: the keys of the table written are the keys of the table read and
    the keys, in both orderings, of every two distinct routers of the
    inventory. *)
Theorem X3_keys_of_the_table_written hosts outfile out k :
  main hosts outfile = (Returned tt, Some out) →
  NoDup (routers hosts) →
  is_Some (igp_wg_ports out !! k) ↔
  is_Some (igp_wg_ports (_read_previous_settings outfile) !! k) ∨
  ∃ a b, a ∈ routers hosts ∧ b ∈ routers hosts ∧ a ≠ b ∧ k = key a b.
Proof.
  intros (m1 & m2 & Hrun & Hnp & Hports & ->)%main_ports Hnodup.
  rewrite <-Hports, <-elem_of_pair_keys_routers by done.
  rewrite <-!elem_of_dom, (allocate_loop_dom _ _ _ Hrun).
  by rewrite elem_of_union, elem_of_list_to_set.
Qed.

Lemma X3_keys_of_the_table_written_witness :
  is_Some (igp_wg_ports mesh_and_leaf_out !! "L,B") ↔
  is_Some (igp_wg_ports (_read_previous_settings None) !! "L,B") ∨
  ∃ a b, a ∈ routers mesh_and_leaf ∧ b ∈ routers mesh_and_leaf ∧ a ≠ b ∧
         "L,B" = key a b.
Proof.
  apply (X3_keys_of_the_table_written mesh_and_leaf None mesh_and_leaf_out "L,B").
  - vm_compute. reflexivity.
  - by_evaluation.
Defined.

(** X4: without a file, [n] routers (distinct identifiers without a comma)
    use [n(n-1)/2] ports: the counter written is 55000 plus that number,
    and the table written has [n(n-1)] keys. *)
Theorem X4_ports_used_from_scratch hosts out :
  main hosts None = (Returned tt, Some out) →
  NoDup (routers hosts) → Forall comma_free (routers hosts) →
  let n := length (routers hosts) in
  2 * (next_port out - START_PORT) = Z.of_nat (n * (n - 1)) ∧
  size (igp_wg_ports out) = (n * (n - 1))%nat.
Proof.
  intros (m1 & m2 & Hrun & Hnp & Hports & ->)%main_ports Hnodup Hfree.
  pose proof (NoDup_pair_keys _ Hnodup Hfree) as Hkeys.
  simpl in Hnp, Hports |- *. split.
  - rewrite (allocate_loop_count _ _ _ Hrun Hkeys), Hnp, Hports.
    rewrite missing_pairs_empty, <-length_combinations2. lia.
  - rewrite <-size_dom, (allocate_loop_dom _ _ _ Hrun), Hports.
    rewrite dom_empty_L, (left_id_L ∅ (∪)), size_list_to_set by done.
    by rewrite length_pair_keys, length_combinations2.
Qed.

Lemma X4_ports_used_from_scratch_witness :
  let n := length (routers mesh_and_leaf) in
  2 * (next_port mesh_and_leaf_out - START_PORT) = Z.of_nat (n * (n - 1)) ∧
  size (igp_wg_ports mesh_and_leaf_out) = (n * (n - 1))%nat.
Proof.
  apply (X4_ports_used_from_scratch mesh_and_leaf mesh_and_leaf_out).
  - vm_compute. reflexivity.
  - by_evaluation.
  - by_evaluation.
Defined.

(** X5: the counter never decreases, and it is written back unchanged
    exactly when the port table is written back unchanged. *)
Theorem X5_counter_moves_with_the_table hosts outfile out :
  main hosts outfile = (Returned tt, Some out) →
  next_port (_read_previous_settings outfile) ≤ next_port out ∧
  (next_port out = next_port (_read_previous_settings outfile) ↔
   igp_wg_ports out = igp_wg_ports (_read_previous_settings outfile)).
Proof.
  intros (m1 & m2 & Hrun & Hnp & Hports & ->)%main_ports.
  rewrite <-Hnp, <-Hports.
  destruct (allocate_loop_changes _ _ _ Hrun) as [->|[Hlt (k & Hk & Hk')]].
  - split; [lia | done].
  - split; [lia|]. split; [lia|]. intros Heq. rewrite Heq, Hk in Hk'.
    by destruct Hk'.
Qed.

Lemma X5_counter_moves_with_the_table_witness :
  next_port (_read_previous_settings None) ≤ next_port two_mesh_out ∧
  (next_port two_mesh_out = next_port (_read_previous_settings None) ↔
   igp_wg_ports two_mesh_out = igp_wg_ports (_read_previous_settings None)).
Proof.
  apply (X5_counter_moves_with_the_table two_mesh None two_mesh_out).
  vm_compute. reflexivity.
Defined.
End port_properties.

(** ** More on the table of neighbours *)

Section neighbour_properties.
Implicit Types (hosts : inventory) (outfile : option settings) (out : settings).
Implicit Types (m : mem) (a b k x : string).

(** Derivation from another file: the same, but for the counter and the
    port table carried along. *)
Lemma derive_other_file hosts outfile outfile' :
  derive hosts outfile' =
    let (o, m) := derive hosts outfile in
    (o, with_ports (_read_previous_settings outfile') m).
Proof.
  unfold derive, populate_neighbours.
  change (cleared outfile')
    with (with_ports (_read_previous_settings outfile') (cleared outfile)).
  apply visit_all_with_ports.
Qed.

Lemma main_outcome hosts outfile :
  (main hosts outfile).1 = (derive hosts outfile).1.
Proof.
  unfold main. rewrite main_body_derive.
  destruct (derive hosts outfile) as [[[]|e] m1]; [|done].
  destruct (allocate_loop_returns (combinations2 (routers hosts)) m1)
    as (m2 & Hrun & _).
  unfold populate_ports. fold (routers hosts). by rewrite Hrun.
Qed.

(** X6: the table of neighbours is rebuilt from the inventory alone: two
    runs on one inventory end the same way (both reach the end, or both
    raise the same error) whatever the file holds, and when they reach the
    end they write the same table of neighbours. *)
Theorem X6_neighbours_do_not_depend_on_the_file hosts outfile outfile' :
  (main hosts outfile).1 = (main hosts outfile').1 ∧
  ∀ out out', main hosts outfile = (Returned tt, Some out) →
    main hosts outfile' = (Returned tt, Some out') →
    igp_neighbours out = igp_neighbours out'.
Proof.
  split.
  - rewrite !main_outcome, (derive_other_file hosts outfile outfile').
    by destruct (derive hosts outfile).
  - intros out out' (m1 & Hderive & ->)%main_neighbours
      (m1' & Hderive' & ->)%main_neighbours.
    rewrite (derive_other_file hosts outfile outfile'), Hderive in Hderive'.
    by injection Hderive' as <-.
Qed.

(** X7: the table of neighbours written has an entry for every router of
    the inventory and for every identifier some router names as an
    upstream, and no other entry; entries of the file read for other
    identifiers are gone. *)
Theorem X7_entries_of_the_neighbour_table hosts outfile out k :
  main hosts outfile = (Returned tt, Some out) →
  NoDup (routers hosts) →
  is_Some (igp_neighbours out !! k) ↔
  k ∈ routers hosts ∨ ∃ a, k ∈ upstreams hosts a.
Proof.
  intros (m1 & Hderive & ->)%main_neighbours Hnodup.
  destruct (derive_adjacency _ _ _ Hderive Hnodup) as [Hdom _].
  rewrite <-elem_of_dom, Hdom, elem_of_union, elem_of_list_to_set.
  rewrite elem_of_upstreams_of. split.
  - intros [?|(s & sd & Hin & Hk)]; [by left|]. right. exists s.
    apply elem_of_upstreams; eauto.
  - intros [?|(a & Hk)]; [by left|]. right.
    apply elem_of_upstreams in Hk as (sd & Hin & Hk); eauto.
Qed.

Lemma X7_entries_of_the_neighbour_table_witness :
  is_Some (igp_neighbours mesh_and_leaf_out !! "U") ↔
  "U" ∈ routers mesh_and_leaf ∨ ∃ a, "U" ∈ upstreams mesh_and_leaf a.
Proof.
  apply (X7_entries_of_the_neighbour_table mesh_and_leaf None mesh_and_leaf_out "U").
  - vm_compute. reflexivity.
  - by_evaluation.
Defined.

(** X8: when every member of the mesh group is a router of the inventory,
    the table of neighbours written is symmetric: [b] is a neighbour of [a]
    exactly when [a] is a neighbour of [b], for any two identifiers. *)
Theorem X8_neighbours_are_mutual hosts outfile out a b :
  main hosts outfile = (Returned tt, Some out) →
  NoDup (routers hosts) →
  (∀ x, x ∈ meshrouters hosts → x ∈ routers hosts) →
  b ∈ neighbours_of (igp_neighbours out) a ↔
  a ∈ neighbours_of (igp_neighbours out) b.
Proof.
  intros (m1 & Hderive & ->)%main_neighbours Hnodup Hmesh.
  destruct (derive_adjacency _ _ _ Hderive Hnodup) as [_ Hin].
  rewrite !Hin. pose proof (Hmesh a). pose proof (Hmesh b).
  intuition congruence.
Qed.

Lemma X8_neighbours_are_mutual_witness :
  "U" ∈ neighbours_of (igp_neighbours mesh_and_leaf_out) "L" ↔
  "L" ∈ neighbours_of (igp_neighbours mesh_and_leaf_out) "U".
Proof.
  apply (X8_neighbours_are_mutual mesh_and_leaf None mesh_and_leaf_out "L" "U").
  - vm_compute. reflexivity.
  - by_evaluation.
  - apply Forall_forall. by_evaluation.
Defined.

(** X9: a member of the mesh group that is not a router of the inventory,
    and that no router names as an upstream, is a neighbour of every mesh
    router of the inventory and has no entry of its own in the table. *)
Theorem X9_mesh_member_outside_the_inventory hosts outfile out a x :
  main hosts outfile = (Returned tt, Some out) →
  NoDup (routers hosts) →
  a ∈ routers hosts → a ∈ meshrouters hosts →
  x ∈ meshrouters hosts → x ∉ routers hosts →
  (∀ b, x ∉ upstreams hosts b) →
  x ∈ neighbours_of (igp_neighbours out) a ∧ igp_neighbours out !! x = None.
Proof.
  intros (m1 & Hderive & ->)%main_neighbours Hnodup Ha Hma Hmx Hx Hup.
  destruct (derive_adjacency _ _ _ Hderive Hnodup) as [Hdom Hin]. split.
  - rewrite Hin. left. split_and!; [done.. |]. by intros ->.
  - apply not_elem_of_dom. rewrite Hdom, elem_of_union, elem_of_list_to_set.
    rewrite elem_of_upstreams_of. intros [?|(s & sd & Hs & Hk)]; [done|].
    apply (Hup s). apply elem_of_upstreams; eauto.
Qed.

Lemma X9_mesh_member_outside_the_inventory_witness :
  ∃ out, main mesh_with_guest None =
           (Returned tt, Some out) ∧
    "G" ∈ neighbours_of (igp_neighbours out) "A" ∧ igp_neighbours out !! "G" = None.
Proof.
  eexists. split; [vm_compute; reflexivity|].
  apply (X9_mesh_member_outside_the_inventory mesh_with_guest None _ "A" "G").
  - vm_compute. reflexivity.
  - by_evaluation.
  - by_evaluation.
  - by_evaluation.
  - by_evaluation.
  - by_evaluation.
  - intros b. unfold upstreams. simpl.
    destruct (decide (b = "A")) as [->|Hne].
    + rewrite lookup_insert_eq. simpl. by intros ?%elem_of_nil.
    + rewrite lookup_insert_ne, lookup_empty by done. by intros ?%elem_of_nil.
Defined.
End neighbour_properties.

(** ** More on validation *)

Section validation_properties.
Implicit Types (hosts : inventory) (outfile : option settings) (m : mem).
Implicit Types (l : list (string * serverdata)) (s n first : string).

Local Abbreviation visit_all mesh l :=
  (for_each l (λ '(server, sd), visit mesh server sd)).

(** The loop raises the error of the duplicate shortname at the first
    router whose shortname is taken, when no check failed before; [first]
    is the router that took the shortname. *)
Lemma visit_all_duplicate mesh l m n first s :
  (∃ m', visit_all mesh l m = (Raised (DuplicateShortname n first s), m')) ↔
  ∃ l1 sd l2, l = l1 ++ (s, sd) :: l2 ∧
    Forall (λ p, well_placed mesh p.1 p.2) l1 ∧
    unique_names (dom (seen_shortnames m)) l1 ∧
    shortname sd = n ∧
    (seen_shortnames m !! n = Some first ∨
     ∃ sd', (first, sd') ∈ l1 ∧ shortname sd' = n).
Proof.
  revert m. induction l as [|[s0 sd0] l IH]; intros m.
  - split; [by intros [m' [=]]|]. intros (l1 & sd & l2 & Heq & _).
    by destruct l1.
  - rewrite for_each_cons.
    destruct (visit_cases mesh s0 sd0 m)
      as [(f0 & Hseen & Hrun)|[(Hseen & Hbad & m1 & Hrun & _)|(Hseen & Hok & _)]].
    + rewrite Hrun. split.
      * intros [m' [= <- <- <- _]]. exists [], sd0, l.
        split_and!; [done | constructor | | done | by left].
        split; [constructor | by intros ? ?%elem_of_nil].
      * intros (l1 & sd & l2 & Heq & _ & Huniq & <- & Hfirst).
        destruct l1 as [|p l1]; simplify_eq/=.
        -- destruct Hfirst as [Hfirst|(sd' & []%elem_of_nil & _)].
           rewrite Hseen in Hfirst. injection Hfirst as <-. eauto.
        -- apply unique_names_cons in Huniq as [Hnew _].
           by rewrite not_elem_of_dom, Hseen in Hnew.
    + rewrite Hrun. split; [by intros [m' [=]]|].
      intros (l1 & sd & l2 & Heq & Hwp & _ & <- & Hfirst).
      destruct l1 as [|p l1]; simplify_eq/=.
      * destruct Hfirst as [Hfirst|(sd' & []%elem_of_nil & _)].
        by rewrite Hseen in Hfirst.
      * by apply Forall_cons in Hwp as [? _].
    + destruct (visit_returns mesh s0 sd0 m Hseen Hok)
        as (m1 & Hrun & _ & Hseen1 & _).
      rewrite Hrun, IH, Hseen1, dom_insert_L. split.
      * intros (l1 & sd & l2 & -> & Hwp & Huniq & <- & Hfirst).
        exists ((s0, sd0) :: l1), sd, l2. split_and!; [done | | | done |].
        -- by constructor.
        -- apply unique_names_cons. by rewrite not_elem_of_dom.
        -- destruct Hfirst as [Hfirst|(sd' & Hin & Hsd')].
           ++ destruct (decide (shortname sd0 = shortname sd)) as [Heq|Hne].
              ** rewrite Heq, lookup_insert_eq in Hfirst. injection Hfirst as <-.
                 right. exists sd0. split; [by left | done].
              ** rewrite lookup_insert_ne in Hfirst by done. by left.
           ++ right. exists sd'. split; [by right | done].
      * intros (l1 & sd & l2 & Heq & Hwp & Huniq & <- & Hfirst).
        destruct l1 as [|p l1]; simplify_eq/=.
        { destruct Hfirst as [Hfirst|(sd' & []%elem_of_nil & _)].
          by rewrite Hseen in Hfirst. }
        apply Forall_cons in Hwp as [_ Hwp].
        apply unique_names_cons in Huniq as [_ Huniq].
        exists l1, sd, l2. split_and!; [done.. |].
        destruct Hfirst as [Hfirst|(sd' & [[= -> ->]|Hin]%elem_of_cons & Hsd')].
        -- left. rewrite lookup_insert_ne; [done|]. intros Heq.
           by rewrite <-Heq, Hseen in Hfirst.
        -- left. by rewrite Hsd', lookup_insert_eq.
        -- right. eauto.
Qed.

(** X10: [neighbours.remove(server)] never fails: no run ends with a
    [KeyError]. *)
Theorem X10_remove_never_fails hosts outfile k o :
  main hosts outfile ≠ (Raised (KeyError k), o).
Proof.
  intros (_ & m & Hderive)%main_raised.
  by eapply visit_all_no_KeyError.
Qed.

(** X11: a run reaches its end, and writes the file, exactly when no router
    is misplaced and the shortnames of the routers are pairwise distinct. *)
Theorem X11_run_succeeds_iff_inventory_valid hosts outfile :
  (∃ out, main hosts outfile = (Returned tt, Some out)) ↔
  Forall (λ p, ¬ misplaced (meshrouters hosts) p.1 p.2) (dn42routers hosts) ∧
  NoDup (shortnames (dn42routers hosts)).
Proof.
  rewrite Forall_not_misplaced, <-(derive_returns hosts outfile). split.
  - intros (out & (m1 & m2 & Hderive & _)%main_returned). eauto.
  - intros (m1 & Hderive).
    destruct (allocate_loop_returns (combinations2 (routers hosts)) m1)
      as (m2 & Hrun & _).
    exists (data m2). apply main_returned. by exists m1, m2.
Qed.

(** X12: a run fails with the error of the duplicate shortname [n], naming
    [first] and [s], exactly when [s] is the first router whose shortname an
    earlier router has, that shortname is [n] and that earlier router is
    [first], and no router before [s] is misplaced. *)
Theorem X12_duplicate_error_names_both_routers hosts outfile n first s :
  main hosts outfile = (Raised (DuplicateShortname n first s), outfile) ↔
  ∃ l1 sd l2 sd', dn42routers hosts = l1 ++ (s, sd) :: l2 ∧
    Forall (λ p, ¬ misplaced (meshrouters hosts) p.1 p.2) l1 ∧
    NoDup (shortnames l1) ∧
    shortname sd = n ∧ (first, sd') ∈ l1 ∧ shortname sd' = n.
Proof.
  rewrite main_raised. unfold derive, populate_neighbours.
  rewrite visit_all_duplicate. simpl. rewrite dom_empty_L. split.
  - intros (_ & l1 & sd & l2 & Heq & Hwp & Huniq & Hn & Hfirst).
    destruct Hfirst as [Hfirst|(sd' & Hin & Hsd')];
      [by rewrite lookup_empty in Hfirst|].
    exists l1, sd, l2, sd'.
    split_and!; [done | by apply Forall_not_misplaced
                | by apply unique_names_empty in Huniq | done..].
  - intros (l1 & sd & l2 & sd' & Heq & Hwp & Hnodup & Hn & Hin & Hsd').
    split; [done|]. exists l1, sd, l2.
    split_and!; [done | by apply Forall_not_misplaced
                | by apply unique_names_empty | done | right; eauto].
Qed.
End validation_properties.

(** ** Runs one after the other, and the pairs of the second loop *)

Section run_properties.
Implicit Types (hosts : inventory) (outfile : option settings) (d : settings).

(** What every file the script leaves satisfies, see [X13] below. *)
Local Abbreviation sound d :=
  (counter_above_ports d ∧ symmetric (igp_wg_ports d) ∧
   collision_free (igp_wg_ports d) ∧ START_PORT ≤ next_port d).

Lemma main_keeps_sound hosts outfile :
  Forall comma_free (routers hosts) →
  sound (_read_previous_settings outfile) →
  sound (_read_previous_settings (main hosts outfile).2).
Proof.
  intros Hfree (Hinv & Hsym & Hcoll & Hstart).
  destruct (main hosts outfile) as [[[]|e] o] eqn:Hmain.
  - assert (∃ out, o = Some out) as [out ->].
    { unfold main in Hmain. destruct (main_body _ _) as [[[]|?] ?]; simplify_eq. eauto. }
    apply main_ports in Hmain as (m1 & m2 & Hrun & Hnp & Hports & ->).
    rewrite <-Hports in Hsym, Hcoll. rewrite <-Hnp in Hstart.
    assert (counter_above_ports (data m1)) as Hinv1.
    { unfold counter_above_ports. rewrite Hnp, Hports. apply Hinv. }
    simpl. split_and!.
    + by apply (allocate_loop_counter _ _ _ Hrun).
    + apply (allocate_loop_symmetric _ _ _ Hrun).
      * rewrite Forall_forall in Hfree.
        intros a b [Ha Hb]%elem_of_combinations2. auto.
      * intros a b Hne. by destruct Hne.
    + by apply (allocate_loop_collision_free _ _ _ Hrun).
    + apply allocate_loop_mono in Hrun as [Hc _]. lia.
  - apply main_raised in Hmain as [-> _]. done.
Qed.

(** X13: whatever inventories the script is run on, one run after the other
    from no file (identifiers without a comma; a failed run leaves the file
    as it is), the file it leaves has its counter at 55000 or more and above
    every port of the table, stores every pair under both orderings with
    one port, and gives no port to two pairs. *)
Theorem X13_files_left_by_the_script_are_sound (runs : list inventory) d :
  Forall (λ hosts, Forall comma_free (routers hosts)) runs →
  rerun runs None = Some d →
  counter_above_ports d ∧ symmetric (igp_wg_ports d) ∧
  collision_free (igp_wg_ports d) ∧ START_PORT ≤ next_port d.
Proof.
  intros Hfree Hd.
  assert (∀ outfile, sound (_read_previous_settings outfile) →
            sound (_read_previous_settings (rerun runs outfile))) as Hall.
  { clear Hd. induction Hfree as [|hosts runs Hhosts _ IH]; intros outfile Hsound.
    - done.
    - apply (IH (main hosts outfile).2). by apply main_keeps_sound. }
  specialize (Hall None). rewrite Hd in Hall. apply Hall. simpl.
  unfold counter_above_ports, symmetric, collision_free. simpl.
  split_and!; [intros k v | intros a b | intros k1 k2 v | done];
    by rewrite ?lookup_empty.
Qed.

Lemma X13_files_left_by_the_script_are_sound_witness :
  counter_above_ports mesh_and_leaf_out ∧
  symmetric (igp_wg_ports mesh_and_leaf_out) ∧
  collision_free (igp_wg_ports mesh_and_leaf_out) ∧
  START_PORT ≤ next_port mesh_and_leaf_out.
Proof.
  apply (X13_files_left_by_the_script_are_sound
           [two_mesh; duplicate_in_mesh; mesh_and_leaf] mesh_and_leaf_out).
  - by_evaluation.
  - vm_compute. reflexivity.
Defined.

(** X14: the second loop meets the pair [(a, b)] exactly when [a] stands
    before [b] in the inventory; so, the routers being the keys of a
    dictionary, it meets every two distinct routers once, in one order. *)
Theorem X14_pairs_of_the_second_loop hosts :
  (∀ a b, (a, b) ∈ combinations2 (routers hosts) ↔
     ∃ i j : nat, (i < j)%nat ∧
       routers hosts !! i = Some a ∧ routers hosts !! j = Some b) ∧
  (NoDup (routers hosts) →
     NoDup (combinations2 (routers hosts)) ∧
     ∀ a b, a ∈ routers hosts → b ∈ routers hosts → a ≠ b →
       ((a, b) ∈ combinations2 (routers hosts) ∧
        (b, a) ∉ combinations2 (routers hosts)) ∨
       ((b, a) ∈ combinations2 (routers hosts) ∧
        (a, b) ∉ combinations2 (routers hosts))).
Proof.
  split.
  - generalize (routers hosts). intros l a b.
    induction l as [|x l IH]; simpl.
    + split; [by intros ?%elem_of_nil|]. by intros (i & j & _ & ? & _).
    + rewrite elem_of_app, list_elem_of_fmap, IH. split.
      * intros [(y & [= -> ->] & (j & Hj)%list_elem_of_lookup)
               |(i & j & Hij & Hi & Hj)].
        -- exists 0%nat, (S j). split; [lia | done].
        -- exists (S i), (S j). split; [lia | done].
      * intros (i & j & Hij & Hi & Hj).
        destruct j as [|j]; [lia|]. destruct i as [|i]; simpl in Hi, Hj.
        -- left. injection Hi as ->. exists b. split; [done|].
           apply list_elem_of_lookup. eauto.
        -- right. exists i, j. split; [lia | done].
  - intros Hnodup. split; [by apply NoDup_combinations2|].
    intros a b Ha Hb Hne.
    destruct (combinations2_complete _ _ _ Ha Hb Hne) as [Hp|Hp]; [left | right];
      (split; [done | by apply combinations2_one_order]).
Qed.

Lemma X14_pairs_of_the_second_loop_witness :
  NoDup (combinations2 (routers mesh_and_leaf)) ∧
  ∀ a b, a ∈ routers mesh_and_leaf → b ∈ routers mesh_and_leaf → a ≠ b →
    ((a, b) ∈ combinations2 (routers mesh_and_leaf) ∧
     (b, a) ∉ combinations2 (routers mesh_and_leaf)) ∨
    ((b, a) ∈ combinations2 (routers mesh_and_leaf) ∧
     (a, b) ∉ combinations2 (routers mesh_and_leaf)).
Proof.
  destruct (X14_pairs_of_the_second_loop mesh_and_leaf) as [_ Honce].
  apply Honce. by_evaluation.
Defined.

(** X15: the key [','.join((a, b))] of two identifiers without a comma
    comes from no other pair of identifiers, with or without commas. *)
Theorem X15_joined_key_determines_the_pair a b a' b' :
  comma_free a → comma_free b →
  join "," [a'; b'] = join "," [a; b] → a' = a ∧ b' = b.
Proof. intros Ha Hb. rewrite !join_pair. by apply key_inj. Qed.

Lemma X15_joined_key_determines_the_pair_witness :
  String.append "fra" "1" = "fra1" ∧ String.append "nyc" "2" = "nyc2".
Proof.
  apply (X15_joined_key_determines_the_pair "fra1" "nyc2"
           (String.append "fra" "1") (String.append "nyc" "2"));
    [by_evaluation | by_evaluation | reflexivity].
Defined.
End run_properties.
